(** * Witness stripping for SegWit transactions

    Shallow embedding of [contracts/bridge/script/utils/strip_witness.py]:
    the varint reader [read_varint] and the rewriter [strip_witness_data],
    at the level of the decoded byte string [raw]; the hex decoding on entry
    and the hex encoding on exit, the boundary of the script, are added
    around it in [Hex.strip_witness_data].  [Wire] is the serialized
    format the docstring describes, and [Machine] the control flow of the
    function one step at a time.

    Python integers are unbounded, so offsets and decoded values are [Z];
    a byte string is a [list byte]; indexing and slicing follow Python's
    rules (negative offsets count from the end, slice bounds clamp, an index
    out of range raises [IndexError]). *)

From Stdlib Require Import ZArith List Bool Lia.
From Stdlib Require Import Strings.Byte.
From Stdlib Require Strings.Ascii Strings.String.
Import Stdlib.Strings.String.StringSyntax.
Delimit Scope string_scope with string.
Import ListNotations.
Open Scope Z_scope.

(** ** Exceptions and the error monad *)

Module Py.

(** The only exception the two functions can raise once the bytes are
    decoded: an index out of range in [data[pos]]. *)
Inductive exn : Set := IndexError.

Inductive result (A : Type) : Type :=
| Ok (a : A)
| Raise (e : exn).
Arguments Ok {A} a.
Arguments Raise {A} e.

Definition bind {A B} (c : result A) (k : A -> result B) : result B :=
  match c with
  | Ok a => k a
  | Raise e => Raise e
  end.

Notation "x <- c ;; k" := (bind c (fun x => k))
  (at level 61, c at next level, right associativity).
Notation "' p <- c ;; k" := (bind c (fun x => let 'p := x in k))
  (at level 61, p pattern, c at next level, right associativity).

(** *** Byte strings *)

Definition len {A} (data : list A) : Z := Z.of_nat (length data).

(** [data[i]]: a negative index counts from the end; outside
    [-len, len) the access raises. *)
Definition getitem {A} (data : list A) (i : Z) : result A :=
  let j := if i <? 0 then i + len data else i in
  if (j <? 0) || (len data <=? j) then Raise IndexError
  else match nth_error data (Z.to_nat j) with
       | Some b => Ok b
       | None => Raise IndexError
       end.

(** A slice bound: negative bounds count from the end, and every bound is
    clamped into [0, len]. *)
Definition slice_bound (n i : Z) : Z :=
  if i <? 0 then Z.max 0 (i + n) else Z.min i n.

(** [data[lo:hi]] (never raises; empty when the clamped bounds cross). *)
Definition slice {A} (data : list A) (lo hi : Z) : list A :=
  let s := slice_bound (len data) lo in
  let e := slice_bound (len data) hi in
  firstn (Z.to_nat (e - s)) (skipn (Z.to_nat s) data).

(** [data[lo:]]. *)
Definition slice_from {A} (data : list A) (lo : Z) : list A :=
  skipn (Z.to_nat (slice_bound (len data) lo)) data.

Definition byte_val (b : byte) : Z := Z.of_N (Byte.to_N b).

(** [int.from_bytes(bs, 'little')]. *)
Fixpoint int_from_bytes_little (bs : list byte) : Z :=
  match bs with
  | [] => 0
  | b :: rest => byte_val b + 256 * int_from_bytes_little rest
  end.

(** Equality of byte strings, as [!=] on [bytes] tests it. *)
Fixpoint bytes_eqb (a b : list byte) : bool :=
  match a, b with
  | [], [] => true
  | x :: a', y :: b' => Byte.eqb x y && bytes_eqb a' b'
  | _, _ => false
  end.

(** [for i in range(n): pos = body(pos)], the loop variable unused. *)
Fixpoint for_range (n : nat) (body : Z -> result Z) (pos : Z) : result Z :=
  match n with
  | O => Ok pos
  | S k => pos' <- body pos ;; for_range k body pos'
  end.

End Py.

Import Py.

(** ** The program *)

(** [read_varint(data, pos)]: a Bitcoin varint, as (value, width). *)
Definition read_varint (data : list byte) (pos : Z) : result (Z * Z) :=
  first_byte <- getitem data pos ;;
  if byte_val first_byte <? 0xfd then
    Ok (byte_val first_byte, 1)
  else if byte_val first_byte =? 0xfd then
    Ok (int_from_bytes_little (slice data (pos + 1) (pos + 3)), 3)
  else if byte_val first_byte =? 0xfe then
    Ok (int_from_bytes_little (slice data (pos + 1) (pos + 5)), 5)
  else
    Ok (int_from_bytes_little (slice data (pos + 1) (pos + 9)), 9).

(** Body of the loop over the inputs: previous output (32 + 4 bytes),
    script length, script, sequence (4 bytes). *)
Definition input_body (raw : list byte) (pos : Z) : result Z :=
  let pos := pos + 36 in
  '(script_len, varint_size) <- read_varint raw pos ;;
  let pos := pos + varint_size in
  let pos := pos + script_len in
  let pos := pos + 4 in
  Ok pos.

(** Body of the loop over the outputs: value (8 bytes), script length,
    script. *)
Definition output_body (raw : list byte) (pos : Z) : result Z :=
  let pos := pos + 8 in
  '(script_len, varint_size) <- read_varint raw pos ;;
  let pos := pos + varint_size in
  let pos := pos + script_len in
  Ok pos.

(** [strip_witness_data], on the decoded bytes. *)
Definition strip_witness_data (raw : list byte) : result (list byte) :=
  if (len raw <? 6) || negb (bytes_eqb (slice raw 4 6) [x00; x01]) then
    Ok raw
  else
    let pos := 0 in
    let version := slice raw pos (pos + 4) in
    let pos := pos + 4 in
    let marker_flag := slice raw pos (pos + 2) in
    let pos := pos + 2 in
    '(input_count, varint_size) <- read_varint raw pos ;;
    let pos := pos + varint_size in
    let inputs_start := pos - varint_size in
    pos <- for_range (Z.to_nat input_count) (input_body raw) pos ;;
    let inputs_data := slice raw inputs_start pos in
    let outputs_start := pos in
    '(output_count, varint_size) <- read_varint raw pos ;;
    let pos := pos + varint_size in
    pos <- for_range (Z.to_nat output_count) (output_body raw) pos ;;
    let outputs_data := slice raw outputs_start pos in
    let locktime := slice_from raw (-4) in
    let legacy_tx := version ++ inputs_data ++ outputs_data ++ locktime in
    Ok legacy_tx.

(** ** Vocabulary of the specification *)

(** The specification names two error kinds.  The program raises a single
    exception, [IndexError], which is what the specification calls
    [OutOfBounds]; nothing in the program raises an [InvalidRecord]. *)
Inductive error_kind : Set := InvalidRecord | OutOfBounds.

Definition kind_of (e : exn) : error_kind :=
  match e with IndexError => OutOfBounds end.

Definition fails_with {A} (r : result A) (k : error_kind) : Prop :=
  match r with
  | Raise e => kind_of e = k
  | Ok _ => False
  end.

Definition returns {A} (r : result A) : Prop :=
  match r with
  | Ok _ => True
  | Raise _ => False
  end.

(** The guard of [strip_witness_data], negated: at least 6 bytes, and the
    bytes at offsets 4 and 5 are the marker and flag [00 01]. *)
Definition has_marker (raw : list byte) : bool :=
  negb ((len raw <? 6) || negb (bytes_eqb (slice raw 4 6) [x00; x01])).

(** The cursor positions [strip_witness_data] computes on a marker-bearing
    record: [(inputs_start, outputs_start, pos)] at the end of the walk. *)
Definition section_bounds (raw : list byte) : result (Z * Z * Z) :=
  '(input_count, varint_size) <- read_varint raw 6 ;;
  let pos := 6 + varint_size in
  let inputs_start := pos - varint_size in
  pos <- for_range (Z.to_nat input_count) (input_body raw) pos ;;
  let outputs_start := pos in
  '(output_count, varint_size) <- read_varint raw pos ;;
  let pos := pos + varint_size in
  pos <- for_range (Z.to_nat output_count) (output_body raw) pos ;;
  Ok (inputs_start, outputs_start, pos).

(** A valid tagged record: header, marker, input section, output section,
    tagged payload (of any length, possibly empty) and a 4-byte trailer.
    The marker is present, the walk over both sections completes, and the
    trailer fits after the end of the output section. *)
Definition valid_tagged (raw : list byte) : Prop :=
  has_marker raw = true /\
  exists is_ ie oe, section_bounds raw = Ok (is_, ie, oe) /\ oe + 4 <= len raw.

(** Length of the tagged payload of a valid record whose output section
    ends at [oe]: what lies between the output section and the trailer. *)
Definition tagged_payload_len (raw : list byte) (oe : Z) : Z :=
  len raw - 4 - oe.

(** The width [read_varint] returns, by the four branches on the
    discriminant. *)
Definition varint_width (d : byte) : Z :=
  if byte_val d <? 0xfd then 1
  else if byte_val d =? 0xfd then 3
  else if byte_val d =? 0xfe then 5
  else 9.

(** *** Sample records *)

(** The minimal tagged record of the specification: header, marker, no
    input, no output, empty tagged payload, trailer. *)
Definition minimal_record : list byte :=
  [x00; x00; x00; x00] ++ [x00; x01] ++ [x00] ++ [x00]
  ++ [x00; x00; x00; x00].

(** A tagged record with no input and one output (value 0, empty script),
    empty tagged payload. *)
Definition one_output_record : list byte :=
  [x02; x00; x00; x00] ++ [x00; x01] ++ [x00]
  ++ [x01; x00; x00; x00; x00; x00; x00; x00; x00; x00]
  ++ [x00; x00; x00; x00].

(** A tagged record with one input (empty script) and one output (empty
    script), a 2-byte tagged payload and a trailer. *)
Definition one_input_record : list byte :=
  [x02; x00; x00; x00] ++ [x00; x01]
  ++ [x01] ++ repeat xaa 36 ++ [x00] ++ [xff; xff; xff; xff]
  ++ [x01] ++ repeat x11 8 ++ [x00]
  ++ [x01; x00]
  ++ [x10; x20; x30; x40].

(** A marker-bearing record on which the walk runs past the end: no
    input, one output whose script length (200) exceeds what is left. *)
Definition overrun_record : list byte :=
  [x02; x00; x00; x00] ++ [x00; x01] ++ [x00]
  ++ [x01; x11; x12; x13; x14; x15; x16; x17; x18; xc8].

(** *** The serialized format

    The layout that the docstring of [strip_witness_data] and the comments
    in its two loops describe, as predicates on byte strings.  Nothing
    here mentions the program: a varint is given by its bytes and its
    value, an input and an output by their fields, a section by its count
    and its records. *)
Module Wire.

(** [varint v bs]: the bytes [bs] are a varint of value [v]. *)
Inductive varint : Z -> list byte -> Prop :=
| varint_u8 v d :
    byte_val d < 253 -> v = byte_val d -> varint v [d]
| varint_u16 v d b0 b1 :
    byte_val d = 253 ->
    v = byte_val b0 + 2 ^ 8 * byte_val b1 ->
    varint v [d; b0; b1]
| varint_u32 v d b0 b1 b2 b3 :
    byte_val d = 254 ->
    v = byte_val b0 + 2 ^ 8 * byte_val b1 + 2 ^ 16 * byte_val b2
        + 2 ^ 24 * byte_val b3 ->
    varint v [d; b0; b1; b2; b3]
| varint_u64 v d b0 b1 b2 b3 b4 b5 b6 b7 :
    byte_val d = 255 ->
    v = byte_val b0 + 2 ^ 8 * byte_val b1 + 2 ^ 16 * byte_val b2
        + 2 ^ 24 * byte_val b3 + 2 ^ 32 * byte_val b4
        + 2 ^ 40 * byte_val b5 + 2 ^ 48 * byte_val b6
        + 2 ^ 56 * byte_val b7 ->
    varint v [d; b0; b1; b2; b3; b4; b5; b6; b7].

(** An input: previous output (32 + 4 bytes), script length, script,
    sequence (4 bytes). *)
Inductive input : list byte -> Prop :=
| input_intro prevout script_len script sequence :
    len prevout = 36 -> varint (len script) script_len ->
    len sequence = 4 ->
    input (prevout ++ script_len ++ script ++ sequence).

(** An output: value (8 bytes), script length, script. *)
Inductive output : list byte -> Prop :=
| output_intro value script_len script :
    len value = 8 -> varint (len script) script_len ->
    output (value ++ script_len ++ script).

(** [n] records of one kind, one after the other. *)
Inductive records (P : list byte -> Prop) : nat -> list byte -> Prop :=
| records_nil : records P 0 []
| records_cons r n rest :
    P r -> records P n rest -> records P (S n) (r ++ rest).

(** A section: the count as a varint, then that many records. *)
Inductive section (P : list byte -> Prop) : list byte -> Prop :=
| section_intro n count body :
    varint (Z.of_nat n) count -> records P n body ->
    section P (count ++ body).

(** The parts of a SegWit transaction: version (4 bytes), the inputs with
    their count, the outputs with their count, the witness data (not
    looked at), the locktime (4 bytes). *)
Definition parts (version inputs outputs witness locktime : list byte)
  : Prop :=
  len version = 4 /\ section input inputs /\ section output outputs /\
  len locktime = 4.

(** The SegWit serialization: marker and flag after the version, the
    witness data before the locktime. *)
Definition segwit (version inputs outputs witness locktime : list byte)
  : list byte :=
  version ++ [x00; x01] ++ inputs ++ outputs ++ witness ++ locktime.

(** The legacy serialization of the same transaction. *)
Definition legacy (version inputs outputs locktime : list byte)
  : list byte :=
  version ++ inputs ++ outputs ++ locktime.

End Wire.

(** *** The function as a machine

    The control flow of [strip_witness_data], one step at a time: the
    guard, the read of the input count, one step for every test of the
    loop over the inputs (an iteration of its body, or the exit), the
    read of the output count, the same for the loop over the outputs, and
    the assembly.  [for i in range(n)] is a counter [i] that starts at 0
    and is compared with [n] before every iteration.  A run is given a
    number of steps and has no result when they do not suffice. *)
Module Machine.

Inductive label : Set :=
| AtGuard
| AtInputCount
| InInputs (i n : Z)
| AtOutputCount
| InOutputs (i n : Z)
| AtAssemble.

(** The local variables that outlive a statement. *)
Record locals : Set := Locals {
  pos : Z;
  inputs_start : Z;
  inputs_data : list byte;
  outputs_start : Z
}.

Definition set_pos (v : locals) (p : Z) : locals :=
  {| pos := p;
     inputs_start := inputs_start v;
     inputs_data := inputs_data v;
     outputs_start := outputs_start v |}.

Inductive state : Set :=
| Run (l : label) (v : locals)
| Halt (r : result (list byte)).

Definition step (raw : list byte) (s : state) : state :=
  match s with
  | Halt r => Halt r
  | Run AtGuard v =>
      if (len raw <? 6) || negb (bytes_eqb (slice raw 4 6) [x00; x01]) then
        Halt (Ok raw)
      else Run AtInputCount v
  | Run AtInputCount v =>
      let pos := 0 in
      let pos := pos + 4 in
      let pos := pos + 2 in
      match read_varint raw pos with
      | Raise e => Halt (Raise e)
      | Ok (input_count, varint_size) =>
          let pos := pos + varint_size in
          Run (InInputs 0 input_count)
            {| pos := pos;
               inputs_start := pos - varint_size;
               inputs_data := inputs_data v;
               outputs_start := outputs_start v |}
      end
  | Run (InInputs i n) v =>
      if i <? n then
        match input_body raw (pos v) with
        | Raise e => Halt (Raise e)
        | Ok p => Run (InInputs (i + 1) n) (set_pos v p)
        end
      else Run AtOutputCount v
  | Run AtOutputCount v =>
      match read_varint raw (pos v) with
      | Raise e => Halt (Raise e)
      | Ok (output_count, varint_size) =>
          Run (InOutputs 0 output_count)
            {| pos := pos v + varint_size;
               inputs_start := inputs_start v;
               inputs_data := slice raw (inputs_start v) (pos v);
               outputs_start := pos v |}
      end
  | Run (InOutputs i n) v =>
      if i <? n then
        match output_body raw (pos v) with
        | Raise e => Halt (Raise e)
        | Ok p => Run (InOutputs (i + 1) n) (set_pos v p)
        end
      else Run AtAssemble v
  | Run AtAssemble v =>
      let version := slice raw 0 4 in
      let outputs_data := slice raw (outputs_start v) (pos v) in
      let locktime := slice_from raw (-4) in
      Halt (Ok (version ++ inputs_data v ++ outputs_data ++ locktime))
  end.

Fixpoint steps (k : nat) (raw : list byte) (s : state) : state :=
  match k with
  | O => s
  | S k' => steps k' raw (step raw s)
  end.

Definition start : state :=
  Run AtGuard
    {| pos := 0; inputs_start := 0; inputs_data := []; outputs_start := 0 |}.

(** The result of a run of at most [fuel] steps, if it has halted. *)
Definition run (fuel : nat) (raw : list byte) : option (result (list byte)) :=
  match steps fuel raw start with
  | Halt r => Some r
  | Run _ _ => None
  end.

End Machine.

(** *** The walk as the specification words it

    Sections 4.1 and 4.2 of the specification describe a reader and a
    walk that check every read and every advance of the cursor against
    the end of the sequence.  The program has no such check; these
    definitions exist to compare [valid_tagged] with them. *)
Module Strict.

(** Advance the cursor by [k], failing when that would move it past the
    end of the sequence. *)
Definition advance (raw : list byte) (pos k : Z) : result Z :=
  if pos + k <=? len raw then Ok (pos + k) else Raise IndexError.

(** The varint reader that fails when the payload exceeds the sequence. *)
Definition read_varint (data : list byte) (pos : Z) : result (Z * Z) :=
  '(value, width) <- read_varint data pos ;;
  _ <- advance data pos width ;;
  Ok (value, width).

(** One record of a repeated section: fixed prefix, length varint,
    payload, fixed suffix. *)
Definition record (prefix suffix : Z) (raw : list byte) (pos : Z)
  : result Z :=
  pos <- advance raw pos prefix ;;
  '(payload_len, width) <- read_varint raw pos ;;
  pos <- advance raw pos width ;;
  pos <- advance raw pos payload_len ;;
  advance raw pos suffix.

(** A repeated section: count varint, then that many records. *)
Definition walk (prefix suffix : Z) (raw : list byte) (pos : Z)
  : result Z :=
  '(count, width) <- read_varint raw pos ;;
  pos <- advance raw pos width ;;
  for_range (Z.to_nat count) (record prefix suffix raw) pos.

Definition section_bounds (raw : list byte) : result (Z * Z * Z) :=
  ie <- walk 36 4 raw 6 ;;
  oe <- walk 8 0 raw ie ;;
  Ok (6, ie, oe).

End Strict.

(** ** The function on hex strings

    [strip_witness_data(rawtx_hex)] as the script defines it: the argument
    is decoded with [bytes.fromhex(rawtx_hex.replace('0x', ''))], a record
    without marker is returned as the string that was given, and a
    rewritten record is returned as ['0x' + legacy_tx.hex()].  The
    diagnostics it prints are not part of the returned value and are not
    modelled. *)
Module Hex.

(** A Python [str]: a sequence of code points. *)
Definition str : Set := list N.

Definition of_string (s : String.string) : str :=
  map Ascii.N_of_ascii (String.list_ascii_of_string s).

(** What the function can raise: [ValueError] from [bytes.fromhex], or
    the [IndexError] of the walk. *)
Inductive error : Set :=
| ValueError
| Walk (e : exn).

Inductive outcome (A : Type) : Type :=
| Return (a : A)
| Fail (e : error).
Arguments Return {A} a.
Arguments Fail {A} e.

(** [s.replace('0x', '')]: every occurrence of the two characters [0x],
    found from left to right without overlap, is removed. *)
Fixpoint replace_0x (s : str) : str :=
  match s with
  | [] => []
  | c :: rest =>
      match rest with
      | d :: rest' =>
          if ((c =? 48) && (d =? 120))%N then replace_0x rest'
          else c :: replace_0x rest
      | [] => [c]
      end
  end.

(** ASCII whitespace, which [bytes.fromhex] skips between two bytes:
    tab, line feed, vertical tab, form feed, carriage return, space. *)
Definition is_space (c : N) : bool :=
  (((9 <=? c) && (c <=? 13)) || (c =? 32))%N.

(** The value of a hexadecimal digit, of either case. *)
Definition digit_value (c : N) : option N :=
  if ((48 <=? c) && (c <=? 57))%N then Some (c - 48)%N
  else if ((97 <=? c) && (c <=? 102))%N then Some (c - 87)%N
  else if ((65 <=? c) && (c <=? 70))%N then Some (c - 55)%N
  else None.

Definition byte_of_N (n : N) : byte :=
  match Byte.of_N n with
  | Some b => b
  | None => x00
  end.

(** [bytes.fromhex(s)], as CPython 3.7 and later do it; [None] stands
    for [ValueError].  Whitespace is skipped before a byte, the two digits
    of a byte are adjacent, and any other character (a non-ASCII one
    included), or a missing second digit, is an error. *)
Fixpoint fromhex (s : str) : option (list byte) :=
  match s with
  | [] => Some []
  | c :: rest =>
      if is_space c then fromhex rest
      else
        match digit_value c with
        | None => None
        | Some top =>
            match rest with
            | [] => None
            | d :: rest' =>
                match digit_value d with
                | None => None
                | Some bot =>
                    match fromhex rest' with
                    | Some bs => Some (byte_of_N (16 * top + bot) :: bs)
                    | None => None
                    end
                end
            end
        end
  end.

Definition hex_char (n : N) : N :=
  if (n <? 10)%N then (48 + n)%N else (87 + n)%N.

(** [bs.hex()]: two lowercase digits per byte. *)
Definition hex (bs : list byte) : str :=
  flat_map (fun b => [hex_char (Byte.to_N b / 16); hex_char (Byte.to_N b mod 16)])
           bs.

(** The characters [0x]. *)
Definition prefix_0x : str := [48; 120]%N.

(** [strip_witness_data(rawtx_hex)].  Past the guard, the rest of the
    body is [Spec2Rocq.strip_witness_data] on a record that has the
    marker. *)
Definition strip_witness_data (rawtx_hex : str) : outcome str :=
  match fromhex (replace_0x rawtx_hex) with
  | None => Fail ValueError
  | Some raw =>
      if (len raw <? 6) || negb (bytes_eqb (slice raw 4 6) [x00; x01]) then
        Return rawtx_hex
      else
        match strip_witness_data raw with
        | Ok legacy_tx => Return (prefix_0x ++ hex legacy_tx)
        | Raise e => Fail (Walk e)
        end
  end.

(** Characters of a hexadecimal string. *)
Definition is_hex_digit (c : N) : bool :=
  match digit_value c with Some _ => true | None => false end.

Definition is_lower_hex_digit (c : N) : bool :=
  (((48 <=? c) && (c <=? 57)) || ((97 <=? c) && (c <=? 102)))%N.

End Hex.

(** ** Lists, indexing and slices *)

Section Slices.
Context {A : Type}.
Implicit Types (l data pre mid post : list A) (a b c i : Z).

Lemma len_nonneg l : 0 <= len l.
Proof. unfold len; lia. Qed.

Lemma len_app l1 l2 : len (l1 ++ l2) = len l1 + len l2.
Proof. unfold len; rewrite length_app; lia. Qed.

Lemma slice_bound_in n i : 0 <= i <= n -> slice_bound n i = i.
Proof.
  intros H; unfold slice_bound.
  destruct (Z.ltb_spec i 0); lia.
Qed.

Lemma slice_bound_over n i : 0 <= n <= i -> slice_bound n i = n.
Proof.
  intros H; unfold slice_bound.
  destruct (Z.ltb_spec i 0); lia.
Qed.

Lemma slice_bound_range n i : 0 <= n -> 0 <= slice_bound n i <= n.
Proof.
  intros H; unfold slice_bound.
  destruct (Z.ltb_spec i 0); lia.
Qed.

Lemma slice_bound_mono n i j :
  0 <= n -> 0 <= i <= j -> slice_bound n i <= slice_bound n j.
Proof.
  intros Hn H; unfold slice_bound.
  destruct (Z.ltb_spec i 0), (Z.ltb_spec j 0); lia.
Qed.

Lemma firstn_skipn_glue (x y z : nat) l :
  (x <= y <= z)%nat ->
  firstn (y - x) (skipn x l) ++ firstn (z - y) (skipn y l)
  = firstn (z - x) (skipn x l).
Proof.
  intros H.
  replace (z - x)%nat with ((y - x) + (z - y))%nat by lia.
  rewrite <- (firstn_skipn (y - x) (firstn (y - x + (z - y)) (skipn x l))).
  rewrite firstn_firstn, Nat.min_l by lia.
  f_equal.
  rewrite skipn_firstn_comm, skipn_skipn.
  f_equal; [lia | f_equal; lia].
Qed.

(** Two adjacent slices make one slice. *)
Lemma slice_app data a b c :
  0 <= a <= b -> b <= c ->
  slice data a b ++ slice data b c = slice data a c.
Proof.
  intros Hab Hbc; unfold slice.
  pose proof (len_nonneg data) as Hn.
  pose proof (slice_bound_range (len data) a Hn).
  pose proof (slice_bound_mono (len data) a b Hn ltac:(lia)).
  pose proof (slice_bound_mono (len data) b c Hn ltac:(lia)).
  set (a' := slice_bound _ a) in *.
  set (b' := slice_bound _ b) in *.
  set (c' := slice_bound _ c) in *.
  rewrite !Z2Nat.inj_sub by lia.
  apply firstn_skipn_glue; lia.
Qed.

Lemma slice_length data a b :
  0 <= a <= b -> b <= len data -> len (slice data a b) = b - a.
Proof.
  intros Hab Hb; unfold slice.
  rewrite !slice_bound_in by lia.
  unfold len in *; rewrite length_firstn, length_skipn; lia.
Qed.

Lemma slice_from_length data m :
  - len data <= m < 0 -> len (slice_from data m) = - m.
Proof.
  intros H; unfold slice_from, slice_bound.
  destruct (Z.ltb_spec m 0); [|lia].
  unfold len in *; rewrite length_skipn; lia.
Qed.

(** A slice is a contiguous part of the sequence it is cut from. *)
Lemma slice_contiguous data a b :
  exists pre post, data = pre ++ slice data a b ++ post.
Proof.
  unfold slice.
  set (s := Z.to_nat (slice_bound (len data) a)). set (n := Z.to_nat (_ - _)).
  exists (firstn s data), (skipn n (skipn s data)).
  now rewrite firstn_skipn, firstn_skipn.
Qed.

Lemma slice_from_contiguous data a :
  exists pre, data = pre ++ slice_from data a.
Proof.
  unfold slice_from. set (s := Z.to_nat _).
  exists (firstn s data). now rewrite firstn_skipn.
Qed.

(** Slices of a prefix: below the cut they are the slices of the whole. *)
Lemma slice_firstn data (k : nat) a b :
  0 <= a -> 0 <= b <= Z.of_nat k -> (k <= length data)%nat ->
  slice (firstn k data) a b = slice data a b.
Proof.
  intros Ha Hb Hk; unfold slice, len.
  rewrite length_firstn, Nat.min_l by lia.
  unfold slice_bound.
  destruct (Z.ltb_spec a 0); [lia|].
  destruct (Z.ltb_spec b 0); [lia|].
  rewrite (Z.min_l b (Z.of_nat k)) by lia.
  rewrite (Z.min_l b (Z.of_nat (length data))) by lia.
  destruct (Z.le_gt_cases a (Z.of_nat k)) as [Hak|Hak].
  - rewrite (Z.min_l a (Z.of_nat k)) by lia.
    rewrite (Z.min_l a (Z.of_nat (length data))) by lia.
    destruct (Z.le_gt_cases a b) as [Hle|Hgt].
    + rewrite skipn_firstn_comm, firstn_firstn.
      f_equal. lia.
    + replace (Z.to_nat (b - a)) with 0%nat by lia. reflexivity.
  - replace (Z.to_nat (b - Z.min a (Z.of_nat k))) with 0%nat by lia.
    replace (Z.to_nat (b - Z.min a (Z.of_nat (length data)))) with 0%nat by lia.
    reflexivity.
Qed.

(** With non-negative bounds a slice takes at most [b - a] elements after
    skipping [a]: what is missing at the end is simply not there. *)
Lemma slice_nonneg data a b :
  0 <= a <= b ->
  slice data a b = firstn (Z.to_nat (b - a)) (skipn (Z.to_nat a) data).
Proof.
  intros Hab; unfold slice, slice_bound.
  destruct (Z.ltb_spec a 0); [lia|].
  destruct (Z.ltb_spec b 0); [lia|].
  destruct (Z.le_gt_cases a (len data)) as [Ha|Ha].
  - rewrite (Z.min_l a) by lia.
    destruct (Z.le_gt_cases b (len data)) as [Hb|Hb].
    + now rewrite (Z.min_l b) by lia.
    + rewrite (Z.min_r b) by lia.
      rewrite !firstn_all2; [reflexivity | |];
        rewrite length_skipn; unfold len in *; lia.
  - rewrite !skipn_all2 by (unfold len in *; lia).
    now rewrite !firstn_nil.
Qed.

Lemma slice_middle pre mid post a b :
  a = len pre -> b = len pre + len mid ->
  slice (pre ++ mid ++ post) a b = mid.
Proof.
  intros -> ->. pose proof (len_nonneg pre). pose proof (len_nonneg mid).
  rewrite slice_nonneg by lia.
  unfold len. rewrite Nat2Z.id.
  rewrite skipn_app, skipn_all, Nat.sub_diag. simpl.
  replace (Z.to_nat _) with (length mid) by lia.
  rewrite firstn_app, firstn_all, Nat.sub_diag. simpl.
  apply app_nil_r.
Qed.

Lemma getitem_nonneg data i :
  0 <= i ->
  getitem data i =
  if len data <=? i then Raise IndexError
  else match nth_error data (Z.to_nat i) with
       | Some b => Ok b
       | None => Raise IndexError
       end.
Proof.
  intros Hi; unfold getitem.
  destruct (Z.ltb_spec i 0) as [Hneg|_]; [lia|].
  destruct (Z.ltb_spec i 0) as [Hneg|_]; [lia|].
  reflexivity.
Qed.

Lemma getitem_ok_inv data i x :
  getitem data i = Ok x -> 0 <= i -> i < len data.
Proof.
  intros H Hi; rewrite getitem_nonneg in H by assumption.
  destruct (Z.leb_spec (len data) i); [discriminate | lia].
Qed.

Lemma getitem_nth_error data i :
  0 <= i < len data ->
  exists x, nth_error data (Z.to_nat i) = Some x /\ getitem data i = Ok x.
Proof.
  intros Hi; rewrite getitem_nonneg by lia.
  destruct (Z.leb_spec (len data) i); [lia|].
  destruct (nth_error data (Z.to_nat i)) eqn:E; [now eexists|].
  apply nth_error_None in E. unfold len in *; lia.
Qed.

Lemma getitem_firstn data (k : nat) i :
  0 <= i < Z.of_nat k -> (k <= length data)%nat ->
  getitem (firstn k data) i = getitem data i.
Proof.
  intros Hi Hk; rewrite !getitem_nonneg by lia. unfold len.
  rewrite length_firstn, Nat.min_l by lia.
  destruct (Z.leb_spec (Z.of_nat k) i); [lia|].
  destruct (Z.leb_spec (Z.of_nat (length data)) i); [lia|].
  rewrite nth_error_firstn.
  destruct (Nat.ltb_spec (Z.to_nat i) k); [reflexivity | lia].
Qed.

Lemma getitem_middle pre x post :
  getitem (pre ++ x :: post) (len pre) = Ok x.
Proof.
  pose proof (len_nonneg pre).
  rewrite getitem_nonneg by assumption.
  rewrite len_app. unfold len at 2. cbn [length].
  destruct (Z.leb_spec (len pre + Z.of_nat (S (length post))) (len pre)); [lia|].
  unfold len. rewrite Nat2Z.id, nth_error_app2, Nat.sub_diag by lia.
  reflexivity.
Qed.

Lemma slice_full data : slice data 0 (len data) = data.
Proof.
  pose proof (len_nonneg data).
  rewrite slice_nonneg by lia. simpl.
  apply firstn_all2. unfold len; lia.
Qed.

(** [data[-m:]] is the slice of the last [m] elements when there are that
    many. *)
Lemma slice_from_neg data m :
  - len data <= m < 0 ->
  slice_from data m = slice data (len data + m) (len data).
Proof.
  intros Hm. rewrite slice_nonneg by lia.
  unfold slice_from, slice_bound.
  destruct (Z.ltb_spec m 0); [|lia].
  rewrite Z.max_r by lia.
  replace (m + len data) with (len data + m) by lia.
  symmetry; apply firstn_all2.
  rewrite length_skipn. unfold len in *; lia.
Qed.

Lemma slice_pair data (k : nat) :
  Z.of_nat k + 2 <= len data ->
  exists x y,
    nth_error data k = Some x /\ nth_error data (S k) = Some y /\
    slice data (Z.of_nat k) (Z.of_nat k + 2) = [x; y].
Proof.
  intros H. rewrite slice_nonneg by lia.
  replace (Z.to_nat (Z.of_nat k + 2 - Z.of_nat k)) with 2%nat by lia.
  rewrite Nat2Z.id.
  pose proof (nth_error_skipn k data 0) as H0.
  pose proof (nth_error_skipn k data 1) as H1.
  pose proof (length_skipn k data) as Hl.
  rewrite Nat.add_0_r in H0. rewrite Nat.add_1_r in H1.
  destruct (skipn k data) as [|x [|y rest]];
    try (unfold len in H; simpl in Hl; lia).
  exists x, y. simpl in *. now repeat split.
Qed.

Lemma In_slice data a b x : In x (slice data a b) -> In x data.
Proof.
  intros H. destruct (slice_contiguous data a b) as (pre & post & E).
  rewrite E. apply in_or_app; right. apply in_or_app; now left.
Qed.

Lemma In_slice_from data a x : In x (slice_from data a) -> In x data.
Proof.
  intros H. destruct (slice_from_contiguous data a) as (pre & E).
  rewrite E. apply in_or_app; now right.
Qed.

Lemma slice_from_app_suffix (l t : list A) :
  len t = 4 -> slice_from (l ++ t) (-4) = t.
Proof.
  intros Ht. unfold slice_from, slice_bound. change (-4 <? 0) with true.
  cbv iota. rewrite len_app. pose proof (len_nonneg l).
  replace (Z.to_nat (Z.max 0 (-4 + (len l + len t)))) with (length l)
    by (unfold len in *; lia).
  now rewrite skipn_app, skipn_all, Nat.sub_diag.
Qed.

End Slices.

(** ** The varint reader *)

Lemma byte_val_range b : 0 <= byte_val b <= 255.
Proof.
  unfold byte_val. pose proof (Byte.to_N_bounded b). lia.
Qed.

Lemma int_from_bytes_little_nonneg bs : 0 <= int_from_bytes_little bs.
Proof.
  induction bs as [|b bs IH]; cbn [int_from_bytes_little]; [lia|].
  pose proof (byte_val_range b). lia.
Qed.

Lemma varint_width_cases d :
  varint_width d = 1 \/ varint_width d = 3 \/
  varint_width d = 5 \/ varint_width d = 9.
Proof.
  unfold varint_width.
  destruct (_ <? _); [auto|].
  destruct (_ =? _); [auto|].
  destruct (_ =? _); auto.
Qed.

Lemma read_varint_unfold data pos :
  read_varint data pos =
  d <- getitem data pos ;;
  Ok (if byte_val d <? 0xfd then byte_val d
      else int_from_bytes_little
             (slice data (pos + 1) (pos + varint_width d)),
      varint_width d).
Proof.
  unfold read_varint, varint_width.
  destruct (getitem data pos) as [d|e]; simpl; [|reflexivity].
  destruct (_ <? _); [reflexivity|].
  destruct (_ =? _); [reflexivity|].
  destruct (_ =? _); reflexivity.
Qed.

Lemma read_varint_ok_inv data pos v w :
  read_varint data pos = Ok (v, w) -> 0 <= pos ->
  pos < len data /\ 0 <= v /\ (w = 1 \/ w = 3 \/ w = 5 \/ w = 9).
Proof.
  rewrite read_varint_unfold; intros H Hpos.
  destruct (getitem data pos) as [d|e] eqn:E; simpl in H; [|discriminate].
  injection H as Hv Hw.
  split; [eapply getitem_ok_inv; eassumption|].
  split.
  - subst v. destruct (_ <? _).
    + apply byte_val_range.
    + apply int_from_bytes_little_nonneg.
  - subst w. apply varint_width_cases.
Qed.

(** A varint that lies below a cut of the sequence reads the same from
    the prefix. *)
Lemma read_varint_firstn data (k : nat) pos v w :
  read_varint data pos = Ok (v, w) -> 0 <= pos ->
  pos + w <= Z.of_nat k -> (k <= length data)%nat ->
  read_varint (firstn k data) pos = Ok (v, w).
Proof.
  intros H Hpos Hk Hlen.
  destruct (read_varint_ok_inv _ _ _ _ H Hpos) as (Hin & _ & Hw).
  rewrite read_varint_unfold in *.
  rewrite getitem_firstn by lia.
  destruct (getitem data pos) as [d|e]; simpl in *; [|discriminate].
  injection H as Hv Hw'. subst w.
  rewrite slice_firstn by lia.
  now rewrite Hv.
Qed.

(** ** The walks over the two sections *)

Section Walk.
Variable raw : list byte.

Lemma input_body_ok_inv pos p :
  input_body raw pos = Ok p -> 0 <= pos ->
  exists v w, read_varint raw (pos + 36) = Ok (v, w) /\
              p = pos + 36 + w + v + 4 /\ pos + 41 <= p.
Proof.
  unfold input_body; intros H Hpos.
  destruct (read_varint raw (pos + 36)) as [[v w]|e] eqn:E;
    simpl in H; [|discriminate].
  injection H as <-.
  destruct (read_varint_ok_inv _ _ _ _ E ltac:(lia)) as (_ & Hv & Hw).
  exists v, w. repeat split; lia.
Qed.

Lemma output_body_ok_inv pos p :
  output_body raw pos = Ok p -> 0 <= pos ->
  exists v w, read_varint raw (pos + 8) = Ok (v, w) /\
              p = pos + 8 + w + v /\ pos + 9 <= p.
Proof.
  unfold output_body; intros H Hpos.
  destruct (read_varint raw (pos + 8)) as [[v w]|e] eqn:E;
    simpl in H; [|discriminate].
  injection H as <-.
  destruct (read_varint_ok_inv _ _ _ _ E ltac:(lia)) as (_ & Hv & Hw).
  exists v, w. repeat split; lia.
Qed.

Lemma input_body_firstn (k : nat) pos p :
  input_body raw pos = Ok p -> 0 <= pos ->
  p <= Z.of_nat k -> (k <= length raw)%nat ->
  input_body (firstn k raw) pos = Ok p.
Proof.
  intros H Hpos Hk Hlen.
  destruct (input_body_ok_inv _ _ H Hpos) as (v & w & E & -> & _).
  destruct (read_varint_ok_inv _ _ _ _ E ltac:(lia)) as (_ & Hv & _).
  unfold input_body.
  now rewrite (read_varint_firstn _ _ _ _ _ E) by lia.
Qed.

Lemma output_body_firstn (k : nat) pos p :
  output_body raw pos = Ok p -> 0 <= pos ->
  p <= Z.of_nat k -> (k <= length raw)%nat ->
  output_body (firstn k raw) pos = Ok p.
Proof.
  intros H Hpos Hk Hlen.
  destruct (output_body_ok_inv _ _ H Hpos) as (v & w & E & -> & _).
  destruct (read_varint_ok_inv _ _ _ _ E ltac:(lia)) as (_ & Hv & _).
  unfold output_body.
  now rewrite (read_varint_firstn _ _ _ _ _ E) by lia.
Qed.

End Walk.

(** Loops whose body moves the cursor forward by at least [c], and whose
    body agrees with a second body [body'] whenever it stops at or
    before [K]. *)
Section ForRange.
Variables (body body' : Z -> result Z) (c K : Z).
Hypothesis c_nonneg : 0 <= c.
Hypothesis body_advances :
  forall pos p, body pos = Ok p -> 0 <= pos -> pos + c <= p.
Hypothesis body_agrees :
  forall pos p, body pos = Ok p -> 0 <= pos -> p <= K -> body' pos = Ok p.

Lemma for_range_advances n pos p :
  for_range n body pos = Ok p -> 0 <= pos -> pos + c * Z.of_nat n <= p.
Proof.
  revert pos; induction n as [|n IH]; intros pos H Hpos.
  - injection H as <-. lia.
  - simpl in H. destruct (body pos) as [q|e] eqn:E; simpl in H; [|discriminate].
    pose proof (body_advances _ _ E Hpos).
    specialize (IH q H ltac:(lia)). lia.
Qed.

Lemma for_range_agrees n pos p :
  for_range n body pos = Ok p -> 0 <= pos -> p <= K ->
  for_range n body' pos = Ok p.
Proof.
  revert pos; induction n as [|n IH]; intros pos H Hpos HK.
  - exact H.
  - simpl in *. destruct (body pos) as [q|e] eqn:E; simpl in H; [|discriminate].
    pose proof (body_advances _ _ E Hpos).
    pose proof (for_range_advances _ _ _ H ltac:(lia)).
    rewrite (body_agrees _ _ E Hpos) by nia. simpl.
    apply IH; [assumption | lia | assumption].
Qed.

End ForRange.

Lemma input_body_advances raw pos p :
  input_body raw pos = Ok p -> 0 <= pos -> pos + 41 <= p.
Proof.
  intros H Hp. now destruct (input_body_ok_inv _ _ _ H Hp) as (?&?&?&?&?).
Qed.

Lemma output_body_advances raw pos p :
  output_body raw pos = Ok p -> 0 <= pos -> pos + 9 <= p.
Proof.
  intros H Hp. now destruct (output_body_ok_inv _ _ _ H Hp) as (?&?&?&?&?).
Qed.

Lemma input_walk_advances raw n pos p :
  for_range n (input_body raw) pos = Ok p -> 0 <= pos ->
  pos + 41 * Z.of_nat n <= p.
Proof.
  apply for_range_advances; [lia | apply input_body_advances].
Qed.

Lemma output_walk_advances raw n pos p :
  for_range n (output_body raw) pos = Ok p -> 0 <= pos ->
  pos + 9 * Z.of_nat n <= p.
Proof.
  apply for_range_advances; [lia | apply output_body_advances].
Qed.

Lemma input_walk_firstn raw (k : nat) n pos p :
  for_range n (input_body raw) pos = Ok p -> 0 <= pos ->
  p <= Z.of_nat k -> (k <= length raw)%nat ->
  for_range n (input_body (firstn k raw)) pos = Ok p.
Proof.
  intros H Hpos Hk Hlen.
  apply (for_range_agrees (input_body raw) _ 41 (Z.of_nat k));
    try assumption; [lia | apply input_body_advances |].
  intros; now apply input_body_firstn.
Qed.

Lemma output_walk_firstn raw (k : nat) n pos p :
  for_range n (output_body raw) pos = Ok p -> 0 <= pos ->
  p <= Z.of_nat k -> (k <= length raw)%nat ->
  for_range n (output_body (firstn k raw)) pos = Ok p.
Proof.
  intros H Hpos Hk Hlen.
  apply (for_range_agrees (output_body raw) _ 9 (Z.of_nat k));
    try assumption; [lia | apply output_body_advances |].
  intros; now apply output_body_firstn.
Qed.

(** ** The rewriter, by cases on its guard *)

Lemma bytes_eqb_eq a b : bytes_eqb a b = true <-> a = b.
Proof.
  revert b; induction a as [|x a IH]; intros [|y b]; simpl;
    try (split; [discriminate | congruence]); [tauto|].
  rewrite andb_true_iff, IH. split.
  - intros [H ->]. now rewrite (Byte.byte_dec_bl _ _ H).
  - intros H; injection H as -> ->. split; [now apply Byte.byte_dec_lb | reflexivity].
Qed.

Lemma has_marker_true raw :
  has_marker raw = true <-> 6 <= len raw /\ slice raw 4 6 = [x00; x01].
Proof.
  unfold has_marker.
  rewrite negb_true_iff, orb_false_iff, negb_false_iff, bytes_eqb_eq.
  rewrite Z.ltb_ge. tauto.
Qed.

Lemma strip_witness_data_no_marker raw :
  has_marker raw = false -> strip_witness_data raw = Ok raw.
Proof.
  unfold has_marker, strip_witness_data; intros H.
  apply negb_false_iff in H. now rewrite H.
Qed.

Lemma strip_witness_data_marker raw :
  has_marker raw = true ->
  strip_witness_data raw =
  '(is_, ie, oe) <- section_bounds raw ;;
  Ok (slice raw 0 4 ++ slice raw is_ ie ++ slice raw ie oe
      ++ slice_from raw (-4)).
Proof.
  unfold has_marker, strip_witness_data, section_bounds; intros H.
  apply negb_true_iff in H. rewrite H. cbn zeta.
  change (0 + 4 + 2) with 6. change (0 + 4) with 4.
  destruct (read_varint raw 6) as [[ic w1]|e]; simpl; [|reflexivity].
  destruct (for_range _ _ _) as [ie|e]; simpl; [|reflexivity].
  destruct (read_varint raw ie) as [[oc w2]|e]; simpl; [|reflexivity].
  destruct (for_range _ _ _) as [oe|e]; simpl; reflexivity.
Qed.

(** What a completed walk has read, and where it has been. *)
Lemma section_bounds_ok_inv raw is_ ie oe :
  section_bounds raw = Ok (is_, ie, oe) ->
  exists ic w1 oc w2,
    read_varint raw 6 = Ok (ic, w1) /\
    for_range (Z.to_nat ic) (input_body raw) (6 + w1) = Ok ie /\
    read_varint raw ie = Ok (oc, w2) /\
    for_range (Z.to_nat oc) (output_body raw) (ie + w2) = Ok oe /\
    is_ = 6 /\ 6 + w1 + 41 * ic <= ie /\ ie < len raw /\
    ie + w2 + 9 * oc <= oe /\ 1 <= w1 /\ 1 <= w2 /\ 0 <= ic /\ 0 <= oc.
Proof.
  unfold section_bounds; intros H.
  destruct (read_varint raw 6) as [[ic w1]|e] eqn:E1; cbn [bind] in H; [|discriminate].
  destruct (for_range _ _ _) as [ie'|e] eqn:E2; cbn [bind] in H; [|discriminate].
  destruct (read_varint raw ie') as [[oc w2]|e] eqn:E3; cbn [bind] in H; [|discriminate].
  destruct (for_range _ _ (ie' + w2)) as [oe'|e] eqn:E4; cbn [bind] in H; [|discriminate].
  assert (6 + w1 - w1 = is_ /\ ie' = ie /\ oe' = oe) as (Hs & <- & <-)
    by (repeat split; congruence).
  clear H.
  destruct (read_varint_ok_inv _ _ _ _ E1) as (_ & Hic & Hw1); [lia|].
  pose proof (input_walk_advances _ _ _ _ E2) as Hie.
  destruct (read_varint_ok_inv _ _ _ _ E3) as (Hlt & Hoc & Hw2); [lia|].
  pose proof (output_walk_advances _ _ _ _ E4) as Hoe.
  exists ic, w1, oc, w2.
  repeat split; try assumption; lia.
Qed.

(** The walk over a prefix that contains both sections is the walk over
    the whole record. *)
Lemma section_bounds_firstn raw (k : nat) is_ ie oe :
  section_bounds raw = Ok (is_, ie, oe) ->
  oe <= Z.of_nat k -> (k <= length raw)%nat ->
  section_bounds (firstn k raw) = Ok (is_, ie, oe).
Proof.
  intros H Hk Hlen.
  destruct (section_bounds_ok_inv _ _ _ _ H)
    as (ic & w1 & oc & w2 & E1 & E2 & E3 & E4 & -> & B1 & B2 & B3 & B4 & B5 & B6 & B7).
  unfold section_bounds.
  rewrite (read_varint_firstn _ _ _ _ _ E1) by lia. cbn [bind].
  rewrite (input_walk_firstn _ _ _ _ _ E2) by lia. cbn [bind].
  rewrite (read_varint_firstn _ _ _ _ _ E3) by lia. cbn [bind].
  rewrite (output_walk_firstn _ _ _ _ _ E4) by lia. cbn [bind].
  do 3 f_equal. lia.
Qed.

(** * The claims *)

(** ** Detection *)

(** C1, as the code has it: an input shorter than 6 bytes is returned
    unchanged, as a normal result; nothing is raised. *)
Theorem short_input_returned_unchanged (raw : list byte) :
  len raw < 6 -> strip_witness_data raw = Ok raw.
Proof.
  intros H. apply strip_witness_data_no_marker.
  unfold has_marker.
  destruct (Z.ltb_spec (len raw) 6); [reflexivity | lia].
Qed.

Lemma short_input_returned_unchanged_witness :
  strip_witness_data [x01; x00; x00] = Ok [x01; x00; x00].
Proof.
  apply (short_input_returned_unchanged [x01; x00; x00]).
  vm_compute. reflexivity.
Defined.

(** C1 as stated fails: a 3-byte input is shorter than 6 bytes, and the
    rewriter does not fail with [InvalidRecord] on it. *)
Lemma short_input_is_not_invalid_record :
  ~ (forall raw : list byte,
       len raw < 6 -> fails_with (strip_witness_data raw) InvalidRecord).
Proof.
  intros H. specialize (H [x01; x00; x00]).
  apply H. vm_compute. reflexivity.
Qed.

(** C5: a sequence of at least 6 bytes whose bytes at offsets 4 and 5 are
    not (00, 01) is returned exactly, as a normal result. *)
Theorem non_tagged_input_returned_unchanged (raw : list byte) :
  6 <= len raw ->
  (nth_error raw 4, nth_error raw 5) <> (Some x00, Some x01) ->
  strip_witness_data raw = Ok raw.
Proof.
  intros Hlen Hno. apply strip_witness_data_no_marker.
  destruct (has_marker raw) eqn:E; [exfalso | reflexivity].
  apply has_marker_true in E as [_ E].
  destruct (slice_pair raw 4 ltac:(simpl; lia)) as (b4 & b5 & H4 & H5 & Hs).
  change (Z.of_nat 4 + 2) with 6 in Hs. change (Z.of_nat 4) with 4 in Hs.
  apply Hno. rewrite H4, H5. congruence.
Qed.

Lemma non_tagged_input_returned_unchanged_witness :
  strip_witness_data [x02; x00; x00; x00; x01; x00; x00; x00; x00; x00]
  = Ok [x02; x00; x00; x00; x01; x00; x00; x00; x00; x00].
Proof.
  apply (non_tagged_input_returned_unchanged
           [x02; x00; x00; x00; x01; x00; x00; x00; x00; x00]).
  - vm_compute. discriminate.
  - simpl. discriminate.
Defined.

(** ** The varint reader *)

Lemma getitem_raise_iff {A} (data : list A) i :
  getitem data i = Raise IndexError <-> i < - len data \/ len data <= i.
Proof.
  pose proof (len_nonneg data) as Hn.
  unfold getitem.
  destruct (Z.ltb_spec i 0) as [Hneg|Hpos].
  - destruct (Z.ltb_spec (i + len data) 0); simpl.
    + split; [lia | reflexivity].
    + destruct (Z.leb_spec (len data) (i + len data)); [lia|].
      destruct (nth_error data (Z.to_nat (i + len data))) eqn:E.
      * split; [discriminate | lia].
      * apply nth_error_None in E. unfold len in *; lia.
  - destruct (Z.ltb_spec i 0); [lia|]. simpl.
    destruct (Z.leb_spec (len data) i).
    + split; [lia | reflexivity].
    + destruct (nth_error data (Z.to_nat i)) eqn:E.
      * split; [discriminate | lia].
      * apply nth_error_None in E. unfold len in *; lia.
Qed.

Lemma getitem_from_end {A} (data : list A) i :
  - len data <= i < 0 ->
  exists x,
    nth_error data (Z.to_nat (len data + i)) = Some x /\
    getitem data i = Ok x.
Proof.
  intros Hi. unfold getitem.
  destruct (Z.ltb_spec i 0); [|lia].
  destruct (Z.ltb_spec (i + len data) 0); [lia|].
  destruct (Z.leb_spec (len data) (i + len data)); [lia|]. simpl.
  replace (len data + i) with (i + len data) by lia.
  destruct (nth_error data (Z.to_nat (i + len data))) eqn:E; [now eexists|].
  apply nth_error_None in E. unfold len in *; lia.
Qed.

(** The payload slice [data[pos+1:pos+w]] at an offset counted from the
    end, by Python's rules for slice bounds. *)
Lemma payload_slice_from_end {A} (data : list A) pos w :
  - len data <= pos < 0 -> 1 <= w ->
  slice data (pos + 1) (pos + w) =
  if pos + w <? 0 then
    firstn (Z.to_nat (w - 1)) (skipn (Z.to_nat (len data + pos + 1)) data)
  else if pos =? -1 then
    firstn (Z.to_nat (w - 1)) data
  else
    firstn (Z.to_nat (Z.min (pos + w) (len data) - (len data + pos + 1)))
           (skipn (Z.to_nat (len data + pos + 1)) data).
Proof.
  intros Hpos Hw. unfold slice, slice_bound.
  destruct (Z.ltb_spec (pos + w) 0) as [Hneg|Hnn].
  - destruct (Z.ltb_spec (pos + 1) 0); [|lia].
    f_equal; [lia|]. f_equal. lia.
  - destruct (Z.eqb_spec pos (-1)) as [->|Hne].
    + pose proof (len_nonneg data).
      change (-1 + 1 <? 0) with false. cbv iota.
      replace (Z.to_nat (Z.min (-1 + 1) (len data))) with 0%nat by lia.
      cbn [skipn].
      destruct (Z.le_gt_cases (-1 + w) (len data)).
      * f_equal. lia.
      * rewrite !firstn_all2; [reflexivity | |]; unfold len in *; lia.
    + destruct (Z.ltb_spec (pos + 1) 0); [|lia].
      f_equal; [lia|]. f_equal. lia.
Qed.

(** C2, as the code has it: the reader fails exactly when the offset
    itself lies outside the sequence (at or past the end, or below
    [-len] for an offset counted from the end).  Payload bytes that lie
    past the end never make it fail.  At a non-negative offset inside
    the sequence it returns the discriminant with width 1 below 253, and
    otherwise the little-endian value of those of the next 2, 4 or 8
    bytes that exist, with width 3, 5 or 9.  At an offset counted from
    the end the discriminant is the byte at [len + pos], the widths are
    the same, and the payload is the slice [data[pos+1:pos+w]] as Python
    cuts it: the [w - 1] bytes after the discriminant when [pos + w < 0];
    the first [w - 1] bytes of the sequence that exist when [pos = -1];
    otherwise the bytes from [len + pos + 1] up to [min (pos + w) len],
    which are none unless the sequence has fewer than [w - 1] bytes. *)
Theorem read_varint_fails_iff_offset_outside (data : list byte) (pos : Z) :
  (fails_with (read_varint data pos) OutOfBounds
   <-> pos < - len data \/ len data <= pos) /\
  (0 <= pos < len data ->
   exists d,
     nth_error data (Z.to_nat pos) = Some d /\
     read_varint data pos =
     Ok (if byte_val d <? 0xfd then byte_val d
         else int_from_bytes_little
                (firstn (Z.to_nat (varint_width d - 1))
                        (skipn (Z.to_nat (pos + 1)) data)),
         varint_width d)) /\
  (- len data <= pos < 0 ->
   exists d,
     nth_error data (Z.to_nat (len data + pos)) = Some d /\
     read_varint data pos =
     Ok (if byte_val d <? 0xfd then byte_val d
         else int_from_bytes_little
                (if pos + varint_width d <? 0 then
                   firstn (Z.to_nat (varint_width d - 1))
                          (skipn (Z.to_nat (len data + pos + 1)) data)
                 else if pos =? -1 then
                   firstn (Z.to_nat (varint_width d - 1)) data
                 else
                   firstn (Z.to_nat (Z.min (pos + varint_width d) (len data)
                                     - (len data + pos + 1)))
                          (skipn (Z.to_nat (len data + pos + 1)) data)),
         varint_width d)).
Proof.
  split; [|split].
  - rewrite <- getitem_raise_iff, read_varint_unfold.
    destruct (getitem data pos) as [d|[]]; simpl.
    + split; [tauto | discriminate].
    + split; reflexivity.
  - intros Hpos.
    destruct (getitem_nth_error data pos Hpos) as (d & Hn & Hg).
    exists d. split; [assumption|].
    rewrite read_varint_unfold, Hg. cbn [bind].
    rewrite slice_nonneg by (destruct (varint_width_cases d) as [-> | [-> | [-> | ->]]]; lia).
    replace (pos + varint_width d - (pos + 1)) with (varint_width d - 1) by lia.
    reflexivity.
  - intros Hpos.
    destruct (getitem_from_end data pos Hpos) as (d & Hn & Hg).
    exists d. split; [assumption|].
    rewrite read_varint_unfold, Hg. cbn [bind].
    rewrite payload_slice_from_end
      by (destruct (varint_width_cases d) as [H | [H | [H | H]]]; lia).
    reflexivity.
Qed.

Lemma read_varint_fails_iff_offset_outside_witness :
  fails_with (read_varint [xfd; x01] 2) OutOfBounds /\
  (exists d,
     nth_error [xfd; x01] (Z.to_nat 0) = Some d /\
     read_varint [xfd; x01] 0 =
     Ok (if byte_val d <? 0xfd then byte_val d
         else int_from_bytes_little
                (firstn (Z.to_nat (varint_width d - 1))
                        (skipn (Z.to_nat (0 + 1)) [xfd; x01])),
         varint_width d)) /\
  (exists d,
     nth_error [x01; x02; xfd] (Z.to_nat (len [x01; x02; xfd] + -1))
     = Some d /\
     read_varint [x01; x02; xfd] (-1) =
     Ok (if byte_val d <? 0xfd then byte_val d
         else int_from_bytes_little
                (if -1 + varint_width d <? 0 then
                   firstn (Z.to_nat (varint_width d - 1))
                          (skipn (Z.to_nat (len [x01; x02; xfd] + -1 + 1))
                                 [x01; x02; xfd])
                 else if -1 =? -1 then
                   firstn (Z.to_nat (varint_width d - 1)) [x01; x02; xfd]
                 else
                   firstn (Z.to_nat (Z.min (-1 + varint_width d)
                                           (len [x01; x02; xfd])
                                     - (len [x01; x02; xfd] + -1 + 1)))
                          (skipn (Z.to_nat (len [x01; x02; xfd] + -1 + 1))
                                 [x01; x02; xfd])),
         varint_width d)).
Proof.
  split; [|split].
  - apply (proj1 (read_varint_fails_iff_offset_outside [xfd; x01] 2)).
    right. vm_compute. discriminate.
  - apply (proj1 (proj2 (read_varint_fails_iff_offset_outside [xfd; x01] 0))).
    vm_compute. split; [discriminate | reflexivity].
  - apply (proj2 (proj2 (read_varint_fails_iff_offset_outside
                           [x01; x02; xfd] (-1)))).
    vm_compute. split; [discriminate | reflexivity].
Defined.

(** At offsets counted from the end the payload is not always what
    follows the discriminant: [fd 01 02] read at -3 gives 0, and
    [01 02 fd] read at -1 gives the value of the first two bytes. *)
Example read_varint_from_end :
  read_varint [xfd; x01; x02] (-3) = Ok (0, 3) /\
  read_varint [x01; x02; xfd] (-1) = Ok (513, 3).
Proof. split; reflexivity. Qed.

(** C2 as stated fails: the discriminant 253 at offset 0 of a 1-byte
    sequence requires 2 payload bytes that lie past the end, and the
    reader returns (0, 3) instead of failing. *)
Lemma read_varint_missing_payload_returns :
  getitem [xfd] 0 = Ok xfd /\ byte_val xfd = 253 /\
  len [xfd] < 0 + 1 + 2 /\
  read_varint [xfd] 0 = Ok (0, 3) /\
  ~ fails_with (read_varint [xfd] 0) OutOfBounds.
Proof.
  repeat split; try reflexivity. intros H; exact H.
Qed.

(** C6: with a complete little-endian payload after the discriminant, the
    reader returns the discriminant itself and width 1 below 253 (so for
    0 and 252), the next 2 bytes and width 3 for 253, the next 4 bytes and
    width 5 for 254, the next 8 bytes and width 9 for 255. *)
Theorem read_varint_decodes (pre rest : list byte) :
  (forall d, byte_val d < 253 ->
     read_varint (pre ++ d :: rest) (len pre) = Ok (byte_val d, 1)) /\
  read_varint (pre ++ x00 :: rest) (len pre) = Ok (0, 1) /\
  read_varint (pre ++ xfc :: rest) (len pre) = Ok (252, 1) /\
  (forall b0 b1,
     read_varint (pre ++ xfd :: b0 :: b1 :: rest) (len pre)
     = Ok (byte_val b0 + 2 ^ 8 * byte_val b1, 3)) /\
  (forall b0 b1 b2 b3,
     read_varint (pre ++ xfe :: b0 :: b1 :: b2 :: b3 :: rest) (len pre)
     = Ok (byte_val b0 + 2 ^ 8 * byte_val b1 + 2 ^ 16 * byte_val b2
           + 2 ^ 24 * byte_val b3, 5)) /\
  (forall b0 b1 b2 b3 b4 b5 b6 b7,
     read_varint
       (pre ++ xff :: b0 :: b1 :: b2 :: b3 :: b4 :: b5 :: b6 :: b7 :: rest)
       (len pre)
     = Ok (byte_val b0 + 2 ^ 8 * byte_val b1 + 2 ^ 16 * byte_val b2
           + 2 ^ 24 * byte_val b3 + 2 ^ 32 * byte_val b4
           + 2 ^ 40 * byte_val b5 + 2 ^ 48 * byte_val b6
           + 2 ^ 56 * byte_val b7, 9)).
Proof.
  assert (Hsmall : forall d, byte_val d < 253 ->
            read_varint (pre ++ d :: rest) (len pre) = Ok (byte_val d, 1)).
  { intros d Hd. rewrite read_varint_unfold, getitem_middle. cbn [bind].
    unfold varint_width.
    destruct (Z.ltb_spec (byte_val d) 253); [reflexivity | lia]. }
  assert (Hbig : forall d payload,
            253 <= byte_val d -> len payload = varint_width d - 1 ->
            read_varint (pre ++ d :: payload ++ rest) (len pre)
            = Ok (int_from_bytes_little payload, varint_width d)).
  { intros d payload Hd Hp.
    rewrite read_varint_unfold, getitem_middle. cbn [bind].
    destruct (Z.ltb_spec (byte_val d) 253); [lia|].
    change (pre ++ d :: payload ++ rest)
      with (pre ++ [d] ++ payload ++ rest).
    rewrite app_assoc, slice_middle; [reflexivity | |];
      rewrite len_app; change (len [d]) with 1; lia. }
  split; [exact Hsmall|].
  split; [apply (Hsmall x00); vm_compute; reflexivity|].
  split; [apply (Hsmall xfc); vm_compute; reflexivity|].
  split; [|split].
  - intros b0 b1.
    assert (H := Hbig xfd [b0; b1]).
    cbn [app int_from_bytes_little] in H. rewrite H by (now vm_compute).
    change (varint_width xfd) with 3. do 2 f_equal. lia.
  - intros b0 b1 b2 b3.
    assert (H := Hbig xfe [b0; b1; b2; b3]).
    cbn [app int_from_bytes_little] in H. rewrite H by (now vm_compute).
    change (varint_width xfe) with 5. do 2 f_equal. lia.
  - intros b0 b1 b2 b3 b4 b5 b6 b7.
    assert (H := Hbig xff [b0; b1; b2; b3; b4; b5; b6; b7]).
    cbn [app int_from_bytes_little] in H. rewrite H by (now vm_compute).
    change (varint_width xff) with 9. do 2 f_equal. lia.
Qed.

Lemma read_varint_decodes_witness :
  read_varint ([x07] ++ x2a :: [x09]) (len [x07]) = Ok (byte_val x2a, 1).
Proof.
  apply (proj1 (read_varint_decodes [x07] [x09]) x2a).
  vm_compute. reflexivity.
Defined.

(** ** Valid tagged records *)

Lemma valid_tagged_intro raw is_ ie oe :
  has_marker raw = true -> section_bounds raw = Ok (is_, ie, oe) ->
  (oe + 4 <=? len raw) = true -> valid_tagged raw.
Proof.
  intros Hm Hs Hl. split; [assumption|].
  exists is_, ie, oe. split; [assumption | now apply Z.leb_le].
Qed.

(** On a valid tagged record the walk stays in bounds and the rewriter
    returns the header, the two sections and the trailer. *)
Lemma valid_tagged_rewrite raw :
  valid_tagged raw ->
  exists ie oe,
    section_bounds raw = Ok (6, ie, oe) /\
    7 <= ie /\ ie < oe /\ oe + 4 <= len raw /\
    strip_witness_data raw =
    Ok (slice raw 0 4 ++ slice raw 6 ie ++ slice raw ie oe
        ++ slice_from raw (-4)).
Proof.
  intros (Hm & is_ & ie & oe & Hs & Hl).
  destruct (section_bounds_ok_inv _ _ _ _ Hs)
    as (ic & w1 & oc & w2 & _ & _ & _ & _ & -> & B1 & B2 & B3 & B4 & B5 & B6 & B7).
  exists ie, oe. repeat split; try assumption; try lia.
  rewrite strip_witness_data_marker, Hs by assumption. reflexivity.
Qed.

(** The concrete scenario of the specification: the minimal tagged record
    is rewritten to header, the two count bytes and trailer, 10 bytes. *)
Example minimal_record_rewritten :
  strip_witness_data minimal_record
  = Ok ([x00; x00; x00; x00] ++ [x00] ++ [x00] ++ [x00; x00; x00; x00]).
Proof. reflexivity. Qed.

(** *** Walking a serialized transaction *)

Lemma wire_varint_len v bs :
  Wire.varint v bs -> 1 <= len bs /\ 0 <= v.
Proof.
  intros H.
  destruct H as [v d Hd Hv|v d b0 b1 Hd Hv|v d b0 b1 b2 b3 Hd Hv
                 |v d b0 b1 b2 b3 b4 b5 b6 b7 Hd Hv];
    (split; [unfold len; cbn [length]; lia|]); subst v.
  - apply byte_val_range.
  - pose proof (byte_val_range b0). pose proof (byte_val_range b1). lia.
  - pose proof (byte_val_range b0). pose proof (byte_val_range b1).
    pose proof (byte_val_range b2). pose proof (byte_val_range b3). lia.
  - pose proof (byte_val_range b0). pose proof (byte_val_range b1).
    pose proof (byte_val_range b2). pose proof (byte_val_range b3).
    pose proof (byte_val_range b4). pose proof (byte_val_range b5).
    pose proof (byte_val_range b6). pose proof (byte_val_range b7). lia.
Qed.

(** The reader decodes a varint of the format, wherever it stands. *)
Lemma read_varint_wire pre bs post v :
  Wire.varint v bs ->
  read_varint (pre ++ bs ++ post) (len pre) = Ok (v, len bs).
Proof.
  intros H. unfold read_varint.
  destruct H as [v d Hd Hv|v d b0 b1 Hd Hv|v d b0 b1 b2 b3 Hd Hv
                 |v d b0 b1 b2 b3 b4 b5 b6 b7 Hd Hv];
    cbn [app]; rewrite getitem_middle; cbn [bind];
    destruct (Z.ltb_spec (byte_val d) 253); try lia.
  - now subst.
  - rewrite Hd. cbn [Z.eqb Pos.eqb].
    change (pre ++ d :: b0 :: b1 :: post)
      with (pre ++ [d] ++ [b0; b1] ++ post).
    rewrite app_assoc, slice_middle
      by (rewrite len_app; unfold len; cbn [length]; lia).
    cbn [int_from_bytes_little]. do 2 f_equal. lia.
  - rewrite Hd. cbn [Z.eqb Pos.eqb].
    change (pre ++ d :: b0 :: b1 :: b2 :: b3 :: post)
      with (pre ++ [d] ++ [b0; b1; b2; b3] ++ post).
    rewrite app_assoc, slice_middle
      by (rewrite len_app; unfold len; cbn [length]; lia).
    cbn [int_from_bytes_little]. do 2 f_equal. lia.
  - rewrite Hd. cbn [Z.eqb Pos.eqb].
    change (pre ++ d :: b0 :: b1 :: b2 :: b3 :: b4 :: b5 :: b6 :: b7 :: post)
      with (pre ++ [d] ++ [b0; b1; b2; b3; b4; b5; b6; b7] ++ post).
    rewrite app_assoc, slice_middle
      by (rewrite len_app; unfold len; cbn [length]; lia).
    cbn [int_from_bytes_little]. do 2 f_equal. lia.
Qed.

(** One iteration of the loop over the inputs steps over one input. *)
Lemma input_body_wire pre r post :
  Wire.input r ->
  input_body (pre ++ r ++ post) (len pre) = Ok (len pre + len r).
Proof.
  intros [prevout sl script sequence Hp Hv Hs].
  unfold input_body.
  replace (pre ++ (prevout ++ sl ++ script ++ sequence) ++ post)
    with ((pre ++ prevout) ++ sl ++ (script ++ sequence ++ post))
    by (now rewrite <- !app_assoc).
  replace (len pre + 36) with (len (pre ++ prevout))
    by (rewrite len_app; lia).
  rewrite (read_varint_wire _ _ _ _ Hv). cbn [bind].
  f_equal. rewrite !len_app. lia.
Qed.

(** One iteration of the loop over the outputs steps over one output. *)
Lemma output_body_wire pre r post :
  Wire.output r ->
  output_body (pre ++ r ++ post) (len pre) = Ok (len pre + len r).
Proof.
  intros [value sl script Hp Hv].
  unfold output_body.
  replace (pre ++ (value ++ sl ++ script) ++ post)
    with ((pre ++ value) ++ sl ++ (script ++ post))
    by (now rewrite <- !app_assoc).
  replace (len pre + 8) with (len (pre ++ value))
    by (rewrite len_app; lia).
  rewrite (read_varint_wire _ _ _ _ Hv). cbn [bind].
  f_equal. rewrite !len_app. lia.
Qed.

Section WireWalk.
Variables (P : list byte -> Prop) (body : list byte -> Z -> result Z).
Hypothesis body_wire :
  forall pre r post,
    P r -> body (pre ++ r ++ post) (len pre) = Ok (len pre + len r).

(** A loop of [n] iterations steps over [n] records. *)
Lemma for_range_wire n bs :
  Wire.records P n bs ->
  forall pre post,
    for_range n (body (pre ++ bs ++ post)) (len pre)
    = Ok (len pre + len bs).
Proof.
  induction 1 as [|r n rest Hr Hrest IH]; intros pre post.
  - cbn [for_range]. f_equal. unfold len. cbn [length]. lia.
  - cbn [for_range].
    replace (pre ++ (r ++ rest) ++ post) with (pre ++ r ++ (rest ++ post))
      by (now rewrite <- !app_assoc).
    rewrite body_wire by assumption. cbn [bind].
    replace (pre ++ r ++ rest ++ post) with ((pre ++ r) ++ rest ++ post)
      by (now rewrite <- !app_assoc).
    replace (len pre + len r) with (len (pre ++ r))
      by (now rewrite len_app).
    rewrite IH. f_equal. rewrite !len_app. lia.
Qed.

(** Reading the count and looping steps over a whole section. *)
Lemma walk_wire s :
  Wire.section P s ->
  forall pre post,
    ('(count, varint_size) <- read_varint (pre ++ s ++ post) (len pre) ;;
     for_range (Z.to_nat count) (body (pre ++ s ++ post))
       (len pre + varint_size))
    = Ok (len pre + len s).
Proof.
  intros [n count bs Hc Hb] pre post.
  replace (pre ++ (count ++ bs) ++ post) with (pre ++ count ++ (bs ++ post))
    by (now rewrite <- !app_assoc).
  rewrite (read_varint_wire _ _ _ _ Hc). cbn [bind].
  rewrite Nat2Z.id.
  replace (pre ++ count ++ bs ++ post) with ((pre ++ count) ++ bs ++ post)
    by (now rewrite <- !app_assoc).
  replace (len pre + len count) with (len (pre ++ count))
    by (now rewrite len_app).
  rewrite (for_range_wire n bs Hb). f_equal. rewrite !len_app. lia.
Qed.

End WireWalk.

Lemma wire_section_len P s : Wire.section P s -> 1 <= len s.
Proof.
  intros [n count bs Hc Hb]. rewrite len_app.
  pose proof (wire_varint_len _ _ Hc). pose proof (len_nonneg bs). lia.
Qed.

(** On a serialized SegWit transaction the walk stops where the inputs
    end and where the outputs end. *)
Lemma section_bounds_wire version inputs outputs witness locktime :
  Wire.parts version inputs outputs witness locktime ->
  section_bounds (Wire.segwit version inputs outputs witness locktime)
  = Ok (6, 6 + len inputs, 6 + len inputs + len outputs).
Proof.
  intros (Hv & Hi & Ho & Hl).
  unfold section_bounds, Wire.segwit.
  set (raw := version ++ [x00; x01] ++ inputs ++ outputs ++ witness ++ locktime).
  pose proof (walk_wire Wire.input input_body input_body_wire inputs Hi
                (version ++ [x00; x01]) (outputs ++ witness ++ locktime)) as Wi.
  pose proof (walk_wire Wire.output output_body output_body_wire outputs Ho
                ((version ++ [x00; x01]) ++ inputs) (witness ++ locktime)) as Wo.
  replace ((version ++ [x00; x01]) ++ inputs ++ outputs ++ witness ++ locktime)
    with raw in Wi by (unfold raw; now rewrite <- !app_assoc).
  replace (((version ++ [x00; x01]) ++ inputs) ++ outputs ++ witness ++ locktime)
    with raw in Wo by (unfold raw; now rewrite <- !app_assoc).
  replace (len (version ++ [x00; x01])) with 6 in Wi
    by (rewrite len_app; change (len [x00; x01]) with 2; lia).
  replace (len ((version ++ [x00; x01]) ++ inputs)) with (6 + len inputs) in Wo
    by (rewrite !len_app; change (len [x00; x01]) with 2; lia).
  destruct (read_varint raw 6) as [[ic w1]|e]; cbn [bind] in *; [|discriminate].
  rewrite Wi. cbn [bind].
  destruct (read_varint raw (6 + len inputs)) as [[oc w2]|e];
    cbn [bind] in *; [|discriminate].
  rewrite Wo. cbn [bind]. do 3 f_equal. lia.
Qed.

Lemma has_marker_wire version inputs outputs witness locktime :
  len version = 4 ->
  has_marker (Wire.segwit version inputs outputs witness locktime) = true.
Proof.
  intros Hv. apply has_marker_true. unfold Wire.segwit. split.
  - rewrite !len_app. change (len [x00; x01]) with 2.
    pose proof (len_nonneg inputs). pose proof (len_nonneg outputs).
    pose proof (len_nonneg witness). pose proof (len_nonneg locktime). lia.
  - apply slice_middle; [lia|]. change (len [x00; x01]) with 2. lia.
Qed.

(** The rewriter turns the SegWit serialization into the legacy one. *)
Lemma strip_witness_data_wire version inputs outputs witness locktime :
  Wire.parts version inputs outputs witness locktime ->
  strip_witness_data (Wire.segwit version inputs outputs witness locktime)
  = Ok (Wire.legacy version inputs outputs locktime).
Proof.
  intros Hp. pose proof Hp as (Hv & Hi & Ho & Hl).
  rewrite strip_witness_data_marker by now apply has_marker_wire.
  rewrite (section_bounds_wire _ _ _ _ _ Hp). cbn [bind].
  unfold Wire.segwit, Wire.legacy.
  pose proof (len_nonneg inputs). pose proof (len_nonneg outputs).
  f_equal. f_equal; [|f_equal; [|f_equal]].
  - apply (slice_middle [] version); [reflexivity | change (len []) with 0; lia].
  - rewrite (app_assoc version [x00; x01]).
    apply slice_middle; rewrite len_app; change (len [x00; x01]) with 2; lia.
  - rewrite (app_assoc version [x00; x01]), (app_assoc _ inputs).
    apply slice_middle; rewrite !len_app; change (len [x00; x01]) with 2; lia.
  - rewrite (app_assoc version), (app_assoc _ inputs), (app_assoc _ outputs),
      (app_assoc _ witness).
    now apply slice_from_app_suffix.
Qed.

(** A serialized SegWit transaction is a valid tagged record. *)
Lemma wire_valid_tagged version inputs outputs witness locktime :
  Wire.parts version inputs outputs witness locktime ->
  valid_tagged (Wire.segwit version inputs outputs witness locktime).
Proof.
  intros Hp. pose proof Hp as (Hv & Hi & Ho & Hl).
  split; [now apply has_marker_wire|].
  exists 6, (6 + len inputs), (6 + len inputs + len outputs).
  split; [now apply section_bounds_wire|].
  unfold Wire.segwit. rewrite !len_app. change (len [x00; x01]) with 2.
  pose proof (len_nonneg witness). lia.
Qed.

(** *** Every valid tagged record is a serialized transaction *)

Lemma slice_empty {A} (data : list A) a : slice data a a = [].
Proof.
  unfold slice. now rewrite Z.sub_diag.
Qed.

Lemma slice_one {A} (data : list A) i x :
  getitem data i = Ok x -> 0 <= i -> slice data i (i + 1) = [x].
Proof.
  intros H Hi. pose proof (getitem_ok_inv _ _ _ H Hi) as Hlt.
  destruct (getitem_nth_error data i ltac:(lia)) as (y & Hn & Hg).
  assert (y = x) as -> by congruence.
  rewrite slice_nonneg by lia.
  replace (Z.to_nat (i + 1 - i)) with 1%nat by lia.
  pose proof (nth_error_skipn (Z.to_nat i) data 0) as H0.
  rewrite Nat.add_0_r, Hn in H0.
  destruct (skipn (Z.to_nat i) data) as [|z rest]; [discriminate|].
  cbn in H0. injection H0 as ->. reflexivity.
Qed.

(** What the reader reads inside the sequence is a varint of the format. *)
Lemma wire_varint_of_read raw pos v w :
  read_varint raw pos = Ok (v, w) -> 0 <= pos -> pos + w <= len raw ->
  Wire.varint v (slice raw pos (pos + w)).
Proof.
  intros H Hpos Hle. unfold read_varint in H.
  destruct (getitem raw pos) as [d|e] eqn:Hg; cbn [bind] in H; [|discriminate].
  pose proof (slice_one raw pos d Hg Hpos) as H1.
  assert (Hcut : forall k, 0 <= k -> pos + 1 + k <= len raw ->
            slice raw pos (pos + 1 + k)
            = d :: slice raw (pos + 1) (pos + 1 + k)
            /\ length (slice raw (pos + 1) (pos + 1 + k)) = Z.to_nat k).
  { intros k Hk Hb. split.
    - rewrite <- (slice_app raw pos (pos + 1) (pos + 1 + k)) by lia.
      now rewrite H1.
    - pose proof (slice_length raw (pos + 1) (pos + 1 + k)
                    ltac:(lia) ltac:(lia)) as Hl.
      unfold len in Hl. lia. }
  destruct (Z.ltb_spec (byte_val d) 253).
  { injection H as <- <-. rewrite H1. now apply Wire.varint_u8. }
  destruct (Z.eqb_spec (byte_val d) 253).
  { injection H as <- <-.
    destruct (Hcut 2 ltac:(lia) ltac:(lia)) as (E & L).
    replace (pos + 1 + 2) with (pos + 3) in * by lia. rewrite E.
    destruct (slice raw (pos + 1) (pos + 3)) as [|b0 [|b1 [|? ?]]];
      try discriminate.
    apply Wire.varint_u16; [assumption|].
    cbn [int_from_bytes_little]. lia. }
  destruct (Z.eqb_spec (byte_val d) 254).
  { injection H as <- <-.
    destruct (Hcut 4 ltac:(lia) ltac:(lia)) as (E & L).
    replace (pos + 1 + 4) with (pos + 5) in * by lia. rewrite E.
    destruct (slice raw (pos + 1) (pos + 5))
      as [|b0 [|b1 [|b2 [|b3 [|? ?]]]]]; try discriminate.
    apply Wire.varint_u32; [assumption|].
    cbn [int_from_bytes_little]. lia. }
  injection H as <- <-.
  destruct (Hcut 8 ltac:(lia) ltac:(lia)) as (E & L).
  replace (pos + 1 + 8) with (pos + 9) in * by lia. rewrite E.
  destruct (slice raw (pos + 1) (pos + 9))
    as [|b0 [|b1 [|b2 [|b3 [|b4 [|b5 [|b6 [|b7 [|? ?]]]]]]]]];
    try discriminate.
  pose proof (byte_val_range d).
  apply Wire.varint_u64; [lia|].
  cbn [int_from_bytes_little]. lia.
Qed.

Lemma wire_input_of_body raw pos p :
  input_body raw pos = Ok p -> 0 <= pos -> p <= len raw ->
  Wire.input (slice raw pos p).
Proof.
  intros H Hpos Hp.
  destruct (input_body_ok_inv _ _ _ H Hpos) as (v & w & E & -> & _).
  destruct (read_varint_ok_inv _ _ _ _ E ltac:(lia)) as (_ & Hv & Hw).
  rewrite <- (slice_app raw pos (pos + 36)) by lia.
  rewrite <- (slice_app raw (pos + 36) (pos + 36 + w)) by lia.
  rewrite <- (slice_app raw (pos + 36 + w) (pos + 36 + w + v)) by lia.
  apply Wire.input_intro.
  - rewrite slice_length; lia.
  - rewrite slice_length by lia.
    replace (pos + 36 + w + v - (pos + 36 + w)) with v by lia.
    apply wire_varint_of_read; [assumption | lia | lia].
  - rewrite slice_length; lia.
Qed.

Lemma wire_output_of_body raw pos p :
  output_body raw pos = Ok p -> 0 <= pos -> p <= len raw ->
  Wire.output (slice raw pos p).
Proof.
  intros H Hpos Hp.
  destruct (output_body_ok_inv _ _ _ H Hpos) as (v & w & E & -> & _).
  destruct (read_varint_ok_inv _ _ _ _ E ltac:(lia)) as (_ & Hv & Hw).
  rewrite <- (slice_app raw pos (pos + 8)) by lia.
  rewrite <- (slice_app raw (pos + 8) (pos + 8 + w)) by lia.
  apply Wire.output_intro.
  - rewrite slice_length; lia.
  - rewrite slice_length by lia.
    replace (pos + 8 + w + v - (pos + 8 + w)) with v by lia.
    apply wire_varint_of_read; [assumption | lia | lia].
Qed.

Section WireOfWalk.
Variables (raw : list byte) (P : list byte -> Prop) (body : Z -> result Z).
Hypothesis body_advances :
  forall pos p, body pos = Ok p -> 0 <= pos -> pos + 0 <= p.
Hypothesis body_record :
  forall pos p,
    body pos = Ok p -> 0 <= pos -> p <= len raw -> P (slice raw pos p).

Lemma wire_records_of_for_range n pos p :
  for_range n body pos = Ok p -> 0 <= pos -> p <= len raw ->
  Wire.records P n (slice raw pos p).
Proof.
  revert pos; induction n as [|n IH]; intros pos H Hpos Hp.
  - injection H as <-. rewrite slice_empty. constructor.
  - cbn [for_range] in H.
    destruct (body pos) as [q|e] eqn:E; cbn [bind] in H; [|discriminate].
    pose proof (body_advances _ _ E Hpos).
    pose proof (for_range_advances body 0 ltac:(lia) body_advances _ _ _ H
                  ltac:(lia)).
    rewrite <- (slice_app raw pos q p) by lia.
    constructor; [apply body_record; (assumption || lia)|].
    apply IH; (assumption || lia).
Qed.

Lemma wire_section_of_walk pos count w p :
  read_varint raw pos = Ok (count, w) -> 0 <= pos ->
  for_range (Z.to_nat count) body (pos + w) = Ok p -> p <= len raw ->
  Wire.section P (slice raw pos p).
Proof.
  intros Hr Hpos Hf Hp.
  destruct (read_varint_ok_inv _ _ _ _ Hr Hpos) as (_ & Hc & Hw).
  pose proof (for_range_advances body 0 ltac:(lia) body_advances _ _ _ Hf
                ltac:(lia)).
  rewrite <- (slice_app raw pos (pos + w) p) by lia.
  apply (Wire.section_intro P (Z.to_nat count)).
  - rewrite Z2Nat.id by assumption.
    apply wire_varint_of_read; [assumption | lia | lia].
  - apply wire_records_of_for_range; (assumption || lia).
Qed.

End WireOfWalk.

(** The valid tagged records are exactly the serialized SegWit
    transactions: the records on which the walk of the program completes
    with room for the locktime are those that have the layout. *)
Theorem valid_tagged_iff_wire (raw : list byte) :
  valid_tagged raw <->
  exists version inputs outputs witness locktime,
    Wire.parts version inputs outputs witness locktime /\
    raw = Wire.segwit version inputs outputs witness locktime.
Proof.
  split.
  - intros (Hm & is_ & ie & oe & Hs & Hl).
    apply has_marker_true in Hm as (Hlen & Hmk).
    destruct (section_bounds_ok_inv _ _ _ _ Hs)
      as (ic & w1 & oc & w2 & E1 & E2 & E3 & E4 & ->
          & B1 & B2 & B3 & B4 & B5 & B6 & B7).
    exists (slice raw 0 4), (slice raw 6 ie), (slice raw ie oe),
           (slice raw oe (len raw - 4)), (slice raw (len raw - 4) (len raw)).
    split; [split; [|split; [|split]]|].
    + rewrite slice_length; lia.
    + apply (wire_section_of_walk raw Wire.input (input_body raw)) with ic w1;
        try assumption; try lia.
      * intros ? ? Hb Hq. pose proof (input_body_advances _ _ _ Hb Hq). lia.
      * intros; now apply wire_input_of_body.
    + apply (wire_section_of_walk raw Wire.output (output_body raw)) with oc w2;
        try assumption; try lia.
      * intros ? ? Hb Hq. pose proof (output_body_advances _ _ _ Hb Hq). lia.
      * intros; now apply wire_output_of_body.
    + rewrite slice_length; lia.
    + unfold Wire.segwit. rewrite <- Hmk.
      rewrite !slice_app by lia.
      symmetry; apply slice_full.
  - intros (version & inputs & outputs & witness & locktime & Hp & ->).
    now apply wire_valid_tagged.
Qed.

(** C8: for every serialized SegWit transaction, that is the 4 version
    bytes, marker and flag (00 01), the input section (the input count
    as a varint, then that many inputs), the output section (the output
    count, then that many outputs), witness data and the 4 locktime
    bytes, the output is exactly the version bytes, the input section
    from its count on, the output section and the locktime bytes, in that
    order: the marker and flag at offsets 4 and 5 and the witness data
    are left out, and nothing else is put in. *)
Theorem tagged_record_assembly
  (version inputs outputs witness locktime : list byte) :
  Wire.parts version inputs outputs witness locktime ->
  strip_witness_data
    (version ++ [x00; x01] ++ inputs ++ outputs ++ witness ++ locktime)
  = Ok (version ++ inputs ++ outputs ++ locktime).
Proof.
  intros Hp. exact (strip_witness_data_wire _ _ _ _ _ Hp).
Qed.

Lemma tagged_record_assembly_witness :
  strip_witness_data
    ([x02; x00; x00; x00] ++ [x00; x01]
     ++ ([x01] ++ repeat xaa 36 ++ [x00] ++ [xff; xff; xff; xff])
     ++ ([x01] ++ repeat x11 8 ++ [x00])
     ++ [x01; x00] ++ [x10; x20; x30; x40])
  = Ok ([x02; x00; x00; x00]
        ++ ([x01] ++ repeat xaa 36 ++ [x00] ++ [xff; xff; xff; xff])
        ++ ([x01] ++ repeat x11 8 ++ [x00])
        ++ [x10; x20; x30; x40]).
Proof.
  apply (tagged_record_assembly
           [x02; x00; x00; x00]
           ([x01] ++ repeat xaa 36 ++ [x00] ++ [xff; xff; xff; xff])
           ([x01] ++ repeat x11 8 ++ [x00])
           [x01; x00] [x10; x20; x30; x40]).
  split; [reflexivity|]. split; [|split; [|reflexivity]].
  - apply (Wire.section_intro Wire.input 1 [x01]
             (repeat xaa 36 ++ [x00] ++ [xff; xff; xff; xff])).
    + now apply Wire.varint_u8.
    + rewrite <- (app_nil_r (repeat xaa 36 ++ [x00] ++ [xff; xff; xff; xff])).
      apply Wire.records_cons; [|apply Wire.records_nil].
      apply (Wire.input_intro (repeat xaa 36) [x00] [] [xff; xff; xff; xff]);
        [reflexivity | now apply Wire.varint_u8 | reflexivity].
  - apply (Wire.section_intro Wire.output 1 [x01] (repeat x11 8 ++ [x00])).
    + now apply Wire.varint_u8.
    + rewrite <- (app_nil_r (repeat x11 8 ++ [x00])).
      apply Wire.records_cons; [|apply Wire.records_nil].
      apply (Wire.output_intro (repeat x11 8) [x00] []);
        [reflexivity | now apply Wire.varint_u8].
Defined.

(** C7: for every serialized SegWit transaction the output has 4 + (the
    length of the input section) + (the length of the output section)
    + 4 bytes; that is the length of the input less the 2 bytes of marker
    and flag and the witness data, so strictly less than the length of
    the input whenever the witness data is not empty. *)
Theorem tagged_record_length
  (version inputs outputs witness locktime : list byte) :
  Wire.parts version inputs outputs witness locktime ->
  exists out,
    strip_witness_data
      (version ++ [x00; x01] ++ inputs ++ outputs ++ witness ++ locktime)
    = Ok out /\
    len out = 4 + len inputs + len outputs + 4 /\
    len out + 2 + len witness
    = len (version ++ [x00; x01] ++ inputs ++ outputs ++ witness
           ++ locktime) /\
    (witness <> [] ->
     len out < len (version ++ [x00; x01] ++ inputs ++ outputs ++ witness
                    ++ locktime)).
Proof.
  intros Hp. pose proof Hp as (Hv & Hi & Ho & Hl).
  exists (version ++ inputs ++ outputs ++ locktime).
  split; [exact (strip_witness_data_wire _ _ _ _ _ Hp)|].
  rewrite !len_app. change (len [x00; x01]) with 2.
  pose proof (len_nonneg witness).
  repeat split; try lia.
Qed.

Lemma tagged_record_length_witness :
  exists out,
    strip_witness_data
      ([x02; x00; x00; x00] ++ [x00; x01] ++ [x00] ++ [x00]
       ++ [xaa; xbb] ++ [x10; x20; x30; x40])
    = Ok out /\
    len out = 4 + len [x00] + len [x00] + 4 /\
    len out + 2 + len [xaa; xbb]
    = len ([x02; x00; x00; x00] ++ [x00; x01] ++ [x00] ++ [x00]
           ++ [xaa; xbb] ++ [x10; x20; x30; x40]) /\
    ([xaa; xbb] <> [] ->
     len out < len ([x02; x00; x00; x00] ++ [x00; x01] ++ [x00] ++ [x00]
                    ++ [xaa; xbb] ++ [x10; x20; x30; x40])).
Proof.
  apply (tagged_record_length [x02; x00; x00; x00] [x00] [x00] [xaa; xbb]
           [x10; x20; x30; x40]).
  split; [reflexivity|]. split; [|split; [|reflexivity]].
  - rewrite <- (app_nil_r [x00]).
    apply (Wire.section_intro Wire.input 0 [x00] []);
      [now apply Wire.varint_u8 | apply Wire.records_nil].
  - rewrite <- (app_nil_r [x00]).
    apply (Wire.section_intro Wire.output 0 [x00] []);
      [now apply Wire.varint_u8 | apply Wire.records_nil].
Defined.

(** *** Validity and the checked walk

    A record is a valid tagged record exactly when the marker is present,
    the walk of the specification, which checks every advance, completes,
    and the trailer fits behind it. *)

Lemma advance_ok raw pos k :
  pos + k <= len raw -> Strict.advance raw pos k = Ok (pos + k).
Proof.
  intros H; unfold Strict.advance.
  destruct (Z.leb_spec (pos + k) (len raw)); [reflexivity | lia].
Qed.

Lemma advance_ok_inv raw pos k p :
  Strict.advance raw pos k = Ok p -> p = pos + k /\ p <= len raw.
Proof.
  unfold Strict.advance.
  destruct (Z.leb_spec (pos + k) (len raw)) as [Hle|Hgt]; [|discriminate].
  intros H; injection H as <-. lia.
Qed.

Lemma strict_read_varint_ok raw pos v w :
  read_varint raw pos = Ok (v, w) -> pos + w <= len raw ->
  Strict.read_varint raw pos = Ok (v, w).
Proof.
  intros H Hb; unfold Strict.read_varint.
  rewrite H. cbn [bind]. now rewrite advance_ok.
Qed.

Lemma strict_read_varint_ok_inv raw pos v w :
  Strict.read_varint raw pos = Ok (v, w) ->
  read_varint raw pos = Ok (v, w) /\ pos + w <= len raw.
Proof.
  unfold Strict.read_varint.
  destruct (read_varint raw pos) as [[v' w']|e]; cbn [bind]; [|discriminate].
  destruct (Strict.advance raw pos w') as [q|e] eqn:E; cbn [bind]; [|discriminate].
  intros H; injection H as <- <-.
  apply advance_ok_inv in E. split; [reflexivity | lia].
Qed.

Section StrictRecord.
Variables (prefix suffix : Z) (raw : list byte) (body : Z -> result Z).
Hypothesis prefix_nonneg : 0 <= prefix.
Hypothesis suffix_nonneg : 0 <= suffix.
Hypothesis body_eq :
  forall pos,
    body pos =
    '(payload_len, width) <- read_varint raw (pos + prefix) ;;
    Ok (pos + prefix + width + payload_len + suffix).

Lemma strict_record_of_body pos p :
  body pos = Ok p -> 0 <= pos -> p <= len raw ->
  Strict.record prefix suffix raw pos = Ok p.
Proof.
  rewrite body_eq; intros H Hpos Hp.
  destruct (read_varint raw (pos + prefix)) as [[v w]|e] eqn:E;
    cbn [bind] in H; [|discriminate].
  injection H as <-.
  destruct (read_varint_ok_inv _ _ _ _ E ltac:(lia)) as (_ & Hv & Hw).
  unfold Strict.record.
  rewrite advance_ok by lia. cbn [bind].
  rewrite (strict_read_varint_ok _ _ _ _ E) by lia. cbn [bind].
  rewrite advance_ok by lia. cbn [bind].
  rewrite advance_ok by lia. cbn [bind].
  apply advance_ok; lia.
Qed.

Lemma body_of_strict_record pos p :
  Strict.record prefix suffix raw pos = Ok p -> 0 <= pos ->
  body pos = Ok p /\ pos + prefix + 1 + suffix <= p <= len raw.
Proof.
  unfold Strict.record; intros H Hpos.
  destruct (Strict.advance raw pos prefix) as [p1|e] eqn:E1;
    cbn [bind] in H; [|discriminate].
  apply advance_ok_inv in E1 as (-> & _).
  destruct (Strict.read_varint raw (pos + prefix)) as [[v w]|e] eqn:E2;
    cbn [bind] in H; [|discriminate].
  apply strict_read_varint_ok_inv in E2 as (E2 & _).
  destruct (read_varint_ok_inv _ _ _ _ E2 ltac:(lia)) as (_ & Hv & Hw).
  destruct (Strict.advance raw (pos + prefix) w) as [p2|e] eqn:E3;
    cbn [bind] in H; [|discriminate].
  apply advance_ok_inv in E3 as (-> & _).
  destruct (Strict.advance raw (pos + prefix + w) v) as [p3|e] eqn:E4;
    cbn [bind] in H; [|discriminate].
  apply advance_ok_inv in E4 as (-> & _).
  apply advance_ok_inv in H as (-> & Hle).
  rewrite body_eq, E2. cbn [bind]. split; [reflexivity | lia].
Qed.

Lemma strict_walk_of_walk pos count w p :
  read_varint raw pos = Ok (count, w) -> 0 <= pos ->
  for_range (Z.to_nat count) body (pos + w) = Ok p -> p <= len raw ->
  Strict.walk prefix suffix raw pos = Ok p.
Proof.
  intros Hr Hpos Hf Hp.
  destruct (read_varint_ok_inv _ _ _ _ Hr Hpos) as (_ & _ & Hw).
  assert (Hadv : forall q r, body q = Ok r -> 0 <= q -> q + 0 <= r).
  { intros q r Hb Hq. rewrite body_eq in Hb.
    destruct (read_varint raw (q + prefix)) as [[v' w']|e] eqn:E;
      cbn [bind] in Hb; [|discriminate].
    injection Hb as <-.
    destruct (read_varint_ok_inv _ _ _ _ E ltac:(lia)) as (_ & ? & ?). lia. }
  pose proof (for_range_advances body 0 ltac:(lia) Hadv _ _ _ Hf) as Hmono.
  unfold Strict.walk.
  rewrite (strict_read_varint_ok _ _ _ _ Hr) by lia. cbn [bind].
  rewrite advance_ok by lia. cbn [bind].
  apply (for_range_agrees body _ 0 (len raw)); try assumption; try lia.
  intros; now apply strict_record_of_body.
Qed.

Lemma strict_for_range_bound n pos p :
  for_range n (Strict.record prefix suffix raw) pos = Ok p ->
  0 <= pos <= len raw ->
  for_range n body pos = Ok p /\ p <= len raw.
Proof.
  revert pos; induction n as [|n IH]; intros pos H Hpos.
  - injection H as <-. split; [reflexivity | lia].
  - cbn [for_range] in *.
    destruct (Strict.record prefix suffix raw pos) as [q|e] eqn:E;
      cbn [bind] in H; [|discriminate].
    destruct (body_of_strict_record _ _ E ltac:(lia)) as (Hb & Hq).
    rewrite Hb. cbn [bind]. apply IH; [assumption | lia].
Qed.

Lemma walk_of_strict_walk pos p :
  Strict.walk prefix suffix raw pos = Ok p -> 0 <= pos ->
  exists count w,
    read_varint raw pos = Ok (count, w) /\
    for_range (Z.to_nat count) body (pos + w) = Ok p /\ p <= len raw.
Proof.
  unfold Strict.walk; intros H Hpos.
  destruct (Strict.read_varint raw pos) as [[count w]|e] eqn:E1;
    cbn [bind] in H; [|discriminate].
  apply strict_read_varint_ok_inv in E1 as (E1 & Hb).
  destruct (read_varint_ok_inv _ _ _ _ E1 Hpos) as (_ & _ & Hw).
  destruct (Strict.advance raw pos w) as [q|e] eqn:E2;
    cbn [bind] in H; [|discriminate].
  apply advance_ok_inv in E2 as (-> & Hq).
  exists count, w. split; [assumption|].
  apply strict_for_range_bound; [assumption | lia].
Qed.

End StrictRecord.

Lemma input_body_eq raw pos :
  input_body raw pos =
  '(payload_len, width) <- read_varint raw (pos + 36) ;;
  Ok (pos + 36 + width + payload_len + 4).
Proof. reflexivity. Qed.

Lemma output_body_eq raw pos :
  output_body raw pos =
  '(payload_len, width) <- read_varint raw (pos + 8) ;;
  Ok (pos + 8 + width + payload_len + 0).
Proof.
  unfold output_body.
  destruct (read_varint raw (pos + 8)) as [[v w]|e]; cbn [bind];
    [|reflexivity].
  now rewrite Z.add_0_r.
Qed.

(** The walk of the program completes with the trailer behind it exactly
    when the checked walk does, and then both stop at the same offsets. *)
Theorem valid_tagged_iff_strict (raw : list byte) :
  valid_tagged raw <->
  has_marker raw = true /\
  exists ie oe,
    Strict.section_bounds raw = Ok (6, ie, oe) /\ oe + 4 <= len raw.
Proof.
  split.
  - intros (Hm & is_ & ie & oe & Hs & Hl). split; [assumption|].
    destruct (section_bounds_ok_inv _ _ _ _ Hs)
      as (ic & w1 & oc & w2 & E1 & E2 & E3 & E4 & ->
          & B1 & B2 & B3 & B4 & B5 & B6 & B7).
    exists ie, oe. split; [|assumption].
    unfold Strict.section_bounds.
    rewrite (strict_walk_of_walk 36 4 raw (input_body raw)
               ltac:(lia) ltac:(lia) (input_body_eq raw) 6 ic w1 ie)
      by (assumption || lia).
    cbn [bind].
    rewrite (strict_walk_of_walk 8 0 raw (output_body raw)
               ltac:(lia) ltac:(lia) (output_body_eq raw) ie oc w2 oe)
      by (assumption || lia).
    reflexivity.
  - intros (Hm & ie & oe & Hs & Hl). split; [assumption|].
    exists 6, ie, oe. split; [|assumption].
    unfold Strict.section_bounds in Hs.
    destruct (Strict.walk 36 4 raw 6) as [ie'|e] eqn:E1;
      cbn [bind] in Hs; [|discriminate].
    destruct (Strict.walk 8 0 raw ie') as [oe'|e] eqn:E2;
      cbn [bind] in Hs; [|discriminate].
    assert (ie' = ie /\ oe' = oe) as (-> & ->) by (split; congruence).
    destruct (walk_of_strict_walk 36 4 raw (input_body raw)
                ltac:(lia) ltac:(lia) (input_body_eq raw) 6 ie E1 ltac:(lia))
      as (ic & w1 & R1 & F1 & _).
    destruct (read_varint_ok_inv _ _ _ _ R1 ltac:(lia)) as (_ & _ & Hw1).
    pose proof (input_walk_advances _ _ _ _ F1 ltac:(lia)) as Hie.
    destruct (walk_of_strict_walk 8 0 raw (output_body raw)
                ltac:(lia) ltac:(lia) (output_body_eq raw) ie oe E2 ltac:(lia))
      as (oc & w2 & R2 & F2 & _).
    unfold section_bounds.
    rewrite R1. cbn [bind]. rewrite F1. cbn [bind].
    rewrite R2. cbn [bind]. rewrite F2. cbn [bind].
    do 3 f_equal. lia.
Qed.

(** ** Truncated records *)

(** C3, as the code has it: removing the final byte of a valid tagged
    record does not make the rewriter fail.  Both sections lie before the
    trailer, so the walk is unchanged; the result is the header, the same
    two sections and the last 4 bytes of the truncated input, which are
    the bytes of the record at offsets [len - 5] to [len - 2]. *)
Theorem truncated_record_still_rewrites (raw : list byte) :
  valid_tagged raw ->
  exists ie oe,
    section_bounds raw = Ok (6, ie, oe) /\
    strip_witness_data (removelast raw) =
    Ok (slice raw 0 4 ++ slice raw 6 ie ++ slice raw ie oe
        ++ slice raw (len raw - 5) (len raw - 1)).
Proof.
  intros Hv. pose proof Hv as (Hm & _).
  apply has_marker_true in Hm as (Hlen & Hmk).
  destruct (valid_tagged_rewrite raw Hv) as (ie & oe & Hs & H1 & H2 & H3 & _).
  exists ie, oe. split; [assumption|].
  rewrite removelast_firstn_len.
  set (k := Nat.pred (length raw)).
  assert (Hk : Z.of_nat k = len raw - 1) by (unfold len in *; lia).
  assert (Hkl : (k <= length raw)%nat) by lia.
  assert (Hlk : len (firstn k raw) = len raw - 1)
    by (unfold len in *; rewrite length_firstn; lia).
  rewrite strip_witness_data_marker.
  - rewrite (section_bounds_firstn raw k 6 ie oe) by (assumption || lia).
    cbn [bind].
    rewrite slice_from_neg by lia.
    rewrite !slice_firstn by lia.
    rewrite Hlk. do 5 f_equal. lia.
  - apply has_marker_true. split; [lia|].
    now rewrite slice_firstn by lia.
Qed.

Lemma truncated_record_still_rewrites_witness :
  exists ie oe,
    section_bounds one_input_record = Ok (6, ie, oe) /\
    strip_witness_data (removelast one_input_record) =
    Ok (slice one_input_record 0 4 ++ slice one_input_record 6 ie
        ++ slice one_input_record ie oe
        ++ slice one_input_record (len one_input_record - 5)
             (len one_input_record - 1)).
Proof.
  apply (truncated_record_still_rewrites one_input_record).
  apply (valid_tagged_intro one_input_record 6 48 58); reflexivity.
Defined.

(** C3 as stated fails: the minimal tagged record is valid, and without
    its final byte the rewriter returns ten bytes instead of failing. *)
Lemma truncated_minimal_record_returns :
  valid_tagged minimal_record /\
  strip_witness_data (removelast minimal_record)
  = Ok [x00; x00; x00; x00; x00; x00; x00; x00; x00; x00] /\
  ~ fails_with (strip_witness_data (removelast minimal_record)) OutOfBounds.
Proof.
  split; [|split].
  - apply (valid_tagged_intro minimal_record 6 7 8); reflexivity.
  - reflexivity.
  - intros H; exact H.
Qed.

(** ** Applying the rewriter twice *)

(** C4, as the code has it: on a valid tagged record whose bytes at
    offsets 6 and 7 are not (00, 01), that is, any record but one with no
    input and exactly one output, the output carries no marker at offsets
    4 and 5, so a second application returns it unchanged. *)
Theorem rewrite_twice_without_marker (raw : list byte) :
  valid_tagged raw ->
  (nth_error raw 6, nth_error raw 7) <> (Some x00, Some x01) ->
  exists out,
    strip_witness_data raw = Ok out /\
    has_marker out = false /\
    strip_witness_data out = Ok out.
Proof.
  intros Hv Hno.
  destruct (valid_tagged_rewrite raw Hv) as (ie & oe & Hs & H1 & H2 & H3 & Hr).
  eexists. split; [exact Hr|].
  assert (Hnm : has_marker (slice raw 0 4 ++ slice raw 6 ie ++ slice raw ie oe
                            ++ slice_from raw (-4)) = false).
  { destruct (has_marker _) eqn:E; [exfalso | reflexivity].
    apply has_marker_true in E as [_ E].
    assert (Hout : slice raw 6 ie ++ slice raw ie oe ++ slice_from raw (-4)
                   = slice raw 6 8 ++ slice raw 8 oe ++ slice_from raw (-4)).
    { rewrite app_assoc, slice_app by lia.
      rewrite <- (slice_app raw 6 8 oe) by lia.
      now rewrite <- app_assoc. }
    rewrite Hout in E.
    rewrite slice_middle in E;
      [| rewrite slice_length; lia | rewrite !slice_length; lia].
    destruct (slice_pair raw 6 ltac:(simpl; lia)) as (b6 & b7 & E6 & E7 & Ep).
    change (Z.of_nat 6 + 2) with 8 in Ep. change (Z.of_nat 6) with 6 in Ep.
    apply Hno. rewrite E6, E7. congruence. }
  split; [assumption | now apply strip_witness_data_no_marker].
Qed.

Lemma rewrite_twice_without_marker_witness :
  exists out,
    strip_witness_data one_input_record = Ok out /\
    has_marker out = false /\
    strip_witness_data out = Ok out.
Proof.
  apply (rewrite_twice_without_marker one_input_record).
  - apply (valid_tagged_intro one_input_record 6 48 58); reflexivity.
  - simpl. discriminate.
Defined.

(** C4 as stated fails: a valid tagged record with no input and one
    output is rewritten to a sequence that carries (00, 01) at offsets 4
    and 5 again, and a second application rewrites that to something
    else. *)
Lemma rewrite_twice_differs :
  valid_tagged one_output_record /\
  exists out out',
    strip_witness_data one_output_record = Ok out /\
    strip_witness_data out = Ok out' /\
    out' <> out.
Proof.
  split.
  - apply (valid_tagged_intro one_output_record 6 7 17); reflexivity.
  - eexists; eexists. split; [reflexivity|]. split; [reflexivity|].
    discriminate.
Qed.

(** ** Termination *)

(** Every iteration of a walk over the outputs that completes has read
    its length varint inside the record, so the iterations of a completed
    walk fit in the record, 9 bytes each at least. *)
Lemma output_walk_count_bound raw n pos p :
  for_range n (output_body raw) pos = Ok p -> 0 <= pos -> (0 < n)%nat ->
  pos + 9 * Z.of_nat n <= len raw.
Proof.
  revert pos; induction n as [|n IH]; intros pos H Hpos Hn; [lia|].
  cbn [for_range] in H.
  destruct (output_body raw pos) as [q|e] eqn:E; cbn [bind] in H; [|discriminate].
  destruct (output_body_ok_inv _ _ _ E Hpos) as (v & w & Hr & -> & Hq).
  destruct (read_varint_ok_inv _ _ _ _ Hr ltac:(lia)) as (Hlt & _ & _).
  destruct n as [|n]; [lia|].
  specialize (IH _ H ltac:(lia) ltac:(lia)). lia.
Qed.

Lemma input_walk_count_bound raw n pos p :
  for_range n (input_body raw) pos = Ok p -> 0 <= pos -> (0 < n)%nat ->
  pos + 41 * Z.of_nat n <= len raw + 4.
Proof.
  revert pos; induction n as [|n IH]; intros pos H Hpos Hn; [lia|].
  cbn [for_range] in H.
  destruct (input_body raw pos) as [q|e] eqn:E; cbn [bind] in H; [|discriminate].
  destruct (input_body_ok_inv _ _ _ E Hpos) as (v & w & Hr & -> & Hq).
  destruct (read_varint_ok_inv _ _ _ _ Hr ltac:(lia)) as (Hlt & _ & _).
  destruct n as [|n]; [lia|].
  specialize (IH _ H ltac:(lia) ltac:(lia)). lia.
Qed.

(** *** Runs of the machine *)

Lemma steps_halt k raw r :
  Machine.steps k raw (Machine.Halt r) = Machine.Halt r.
Proof. induction k as [|k IH]; [reflexivity | exact IH]. Qed.

Lemma steps_add a b raw s :
  Machine.steps (a + b) raw s = Machine.steps b raw (Machine.steps a raw s).
Proof.
  revert s; induction a as [|a IH]; intros s; [reflexivity|].
  cbn [Nat.add Machine.steps]. apply IH.
Qed.

(** A run that has halted stays halted, with the same result. *)
Lemma steps_halt_mono a b raw s r :
  Machine.steps a raw s = Machine.Halt r -> (a <= b)%nat ->
  Machine.steps b raw s = Machine.Halt r.
Proof.
  intros H Hab. replace b with (a + (b - a))%nat by lia.
  rewrite steps_add, H. apply steps_halt.
Qed.

(** The two loops, as one: a label [L i n], a body, and the state [exit]
    the machine is in once the counter has reached [n]. *)
Section MachineLoop.
Variables (raw : list byte) (L : Z -> Z -> Machine.label)
          (body : Z -> result Z) (exit : Machine.locals -> Machine.state).
Hypothesis step_L :
  forall i n v,
    Machine.step raw (Machine.Run (L i n) v) =
    if i <? n then
      match body (Machine.pos v) with
      | Raise e => Machine.Halt (Raise e)
      | Ok p => Machine.Run (L (i + 1) n) (Machine.set_pos v p)
      end
    else exit v.
Hypothesis body_reads :
  forall p0 p, body p0 = Ok p -> 0 <= p0 -> p0 < len raw /\ p0 < p.

(** A loop whose [m] iterations complete takes [m] steps for them and
    one more to leave. *)
Lemma loop_completes m :
  forall i n v p,
    for_range m body (Machine.pos v) = Ok p -> n - i = Z.of_nat m ->
    Machine.steps (m + 1) raw (Machine.Run (L i n) v)
    = exit (Machine.set_pos v p).
Proof.
  induction m as [|m IH]; intros i n v p H Hn.
  - injection H as <-. cbn [Nat.add Machine.steps]. rewrite step_L.
    destruct (Z.ltb_spec i n); [lia|]. now destruct v.
  - cbn [for_range] in H.
    destruct (body (Machine.pos v)) as [q|e] eqn:E; cbn [bind] in H;
      [|discriminate].
    cbn [Nat.add Machine.steps]. rewrite step_L, E.
    destruct (Z.ltb_spec i n); [|lia].
    rewrite (IH (i + 1) n (Machine.set_pos v q) p) by (assumption || lia).
    reflexivity.
Qed.

(** A loop in which an iteration raises halts with that exception, after
    no more steps than there are bytes left at its start, plus one. *)
Lemma loop_raises m :
  forall i n v e,
    for_range m body (Machine.pos v) = Raise e -> n - i = Z.of_nat m ->
    0 <= Machine.pos v ->
    exists t,
      Z.of_nat t <= Z.max 0 (len raw - Machine.pos v) + 1 /\
      Machine.steps t raw (Machine.Run (L i n) v) = Machine.Halt (Raise e).
Proof.
  induction m as [|m IH]; intros i n v e H Hn Hpos; [discriminate|].
  cbn [for_range] in H.
  destruct (body (Machine.pos v)) as [q|e'] eqn:E; cbn [bind] in H.
  - destruct (body_reads _ _ E Hpos) as (Hlt & Hq).
    destruct (IH (i + 1) n (Machine.set_pos v q) e H ltac:(lia) ltac:(cbn; lia))
      as (t & Ht & Hs).
    exists (S t). split; [cbn [Machine.pos Machine.set_pos] in Ht; lia|].
    cbn [Machine.steps]. rewrite step_L, E.
    destruct (Z.ltb_spec i n); [exact Hs | lia].
  - injection H as ->. exists 1%nat. split; [lia|].
    cbn [Machine.steps]. rewrite step_L, E.
    destruct (Z.ltb_spec i n); [reflexivity | lia].
Qed.

End MachineLoop.

Lemma input_body_reads raw p0 p :
  input_body raw p0 = Ok p -> 0 <= p0 -> p0 < len raw /\ p0 < p.
Proof.
  intros H Hp. destruct (input_body_ok_inv _ _ _ H Hp) as (v & w & E & _ & Hq).
  destruct (read_varint_ok_inv _ _ _ _ E ltac:(lia)) as (Hlt & _). lia.
Qed.

Lemma output_body_reads raw p0 p :
  output_body raw p0 = Ok p -> 0 <= p0 -> p0 < len raw /\ p0 < p.
Proof.
  intros H Hp. destruct (output_body_ok_inv _ _ _ H Hp) as (v & w & E & _ & Hq).
  destruct (read_varint_ok_inv _ _ _ _ E ltac:(lia)) as (Hlt & _). lia.
Qed.

(** Every run of the machine halts, within [len raw + 6] steps, with the
    result of [strip_witness_data]; a run that returns on a marker-bearing
    input is still at the assembly one step before it halts, after
    [5 + input_count + output_count] steps. *)
Lemma machine_halts raw :
  exists t,
    Z.of_nat t <= len raw + 6 /\
    Machine.steps t raw Machine.start
    = Machine.Halt (strip_witness_data raw) /\
    (has_marker raw = true ->
     forall is_ ie oe ic w1 oc w2,
       section_bounds raw = Ok (is_, ie, oe) ->
       read_varint raw 6 = Ok (ic, w1) ->
       read_varint raw ie = Ok (oc, w2) ->
       t = (6 + Z.to_nat ic + Z.to_nat oc)%nat /\
       exists v,
         Machine.steps (5 + Z.to_nat ic + Z.to_nat oc) raw Machine.start
         = Machine.Run Machine.AtAssemble v).
Proof.
  pose proof (len_nonneg raw) as Hnn.
  destruct (has_marker raw) eqn:Hm.
  2:{ exists 1%nat. split; [lia|]. split; [|discriminate].
      rewrite strip_witness_data_no_marker by assumption.
      cbn [Machine.steps Machine.start Machine.step].
      unfold has_marker in Hm. apply negb_false_iff in Hm. now rewrite Hm. }
  rewrite strip_witness_data_marker by assumption.
  assert (S1 : Machine.steps 1 raw Machine.start
               = Machine.Run Machine.AtInputCount
                   (Machine.Locals 0 0 [] 0)).
  { cbn [Machine.steps Machine.start Machine.step].
    unfold has_marker in Hm. apply negb_true_iff in Hm. now rewrite Hm. }
  unfold section_bounds.
  destruct (read_varint raw 6) as [[ic w1]|e] eqn:E1; cbn [bind].
  2:{ exists 2%nat. split; [lia|]. split.
      - rewrite (steps_add 1 1), S1.
        cbn [Machine.steps Machine.step]. cbn. now rewrite E1.
      - intros _ * H. discriminate. }
  destruct (read_varint_ok_inv _ _ _ _ E1 ltac:(lia)) as (Hlt6 & Hic & Hw1).
  assert (Hw1' : 1 <= w1) by lia.
  set (v1 := Machine.Locals (6 + w1) (6 + w1 - w1) [] 0).
  assert (S2 : Machine.steps 2 raw Machine.start
               = Machine.Run (Machine.InInputs 0 ic) v1).
  { rewrite (steps_add 1 1), S1.
    cbn [Machine.steps Machine.step]. cbn. now rewrite E1. }
  destruct (for_range (Z.to_nat ic) (input_body raw) (6 + w1))
    as [ie|e] eqn:E2; cbn [bind].
  2:{ destruct (loop_raises raw Machine.InInputs (input_body raw)
                  (fun v => Machine.Run Machine.AtOutputCount v)
                  ltac:(reflexivity) (input_body_reads raw)
                  (Z.to_nat ic) 0 ic v1 e E2)
        as (t & Ht & Hs); [lia | unfold v1; cbn [Machine.pos]; lia |].
      cbn [Machine.pos v1] in Ht.
      exists (2 + t)%nat. split; [lia|]. split.
      - now rewrite steps_add, S2.
      - intros _ * H. discriminate. }
  pose proof (loop_completes raw Machine.InInputs (input_body raw)
                (fun v => Machine.Run Machine.AtOutputCount v)
                ltac:(reflexivity) (Z.to_nat ic) 0 ic v1 ie E2 ltac:(lia))
    as L1.
  pose proof (input_walk_advances _ _ _ _ E2 ltac:(lia)) as Hie.
  assert (Hicb : Z.of_nat (Z.to_nat ic) <= len raw).
  { destruct (Z.to_nat ic) as [|k] eqn:Ek; [lia|].
    pose proof (input_walk_count_bound _ _ _ _ E2 ltac:(lia) ltac:(lia)).
    lia. }
  assert (S3 : Machine.steps (3 + Z.to_nat ic) raw Machine.start
               = Machine.Run Machine.AtOutputCount (Machine.set_pos v1 ie)).
  { replace (3 + Z.to_nat ic)%nat with (2 + (Z.to_nat ic + 1))%nat by lia.
    now rewrite steps_add, S2. }
  destruct (read_varint raw ie) as [[oc w2]|e] eqn:E3; cbn [bind].
  2:{ exists (4 + Z.to_nat ic)%nat. split; [lia|]. split.
      - replace (4 + Z.to_nat ic)%nat with (3 + Z.to_nat ic + 1)%nat by lia.
        rewrite steps_add, S3.
        cbn [Machine.steps Machine.step Machine.pos Machine.set_pos].
        now rewrite E3.
      - intros _ * H. discriminate. }
  destruct (read_varint_ok_inv _ _ _ _ E3 ltac:(lia)) as (Hlte & Hoc & Hw2).
  assert (Hw2' : 1 <= w2) by lia.
  set (v2 := Machine.Locals (ie + w2) (6 + w1 - w1)
               (slice raw (6 + w1 - w1) ie) ie).
  assert (S4 : Machine.steps (4 + Z.to_nat ic) raw Machine.start
               = Machine.Run (Machine.InOutputs 0 oc) v2).
  { replace (4 + Z.to_nat ic)%nat with (3 + Z.to_nat ic + 1)%nat by lia.
    rewrite steps_add, S3.
    cbn [Machine.steps Machine.step Machine.pos Machine.set_pos
         Machine.inputs_start v1].
    now rewrite E3. }
  destruct (for_range (Z.to_nat oc) (output_body raw) (ie + w2))
    as [oe|e] eqn:E4; cbn [bind].
  2:{ destruct (loop_raises raw Machine.InOutputs (output_body raw)
                  (fun v => Machine.Run Machine.AtAssemble v)
                  ltac:(reflexivity) (output_body_reads raw)
                  (Z.to_nat oc) 0 oc v2 e E4)
        as (t & Ht & Hs); [lia | unfold v2; cbn [Machine.pos]; lia |].
      cbn [Machine.pos v2] in Ht.
      exists (4 + Z.to_nat ic + t)%nat. split; [lia|]. split.
      - now rewrite steps_add, S4.
      - intros _ * H. discriminate. }
  pose proof (loop_completes raw Machine.InOutputs (output_body raw)
                (fun v => Machine.Run Machine.AtAssemble v)
                ltac:(reflexivity) (Z.to_nat oc) 0 oc v2 oe E4 ltac:(lia))
    as L2.
  assert (Hocb : Z.of_nat (Z.to_nat oc) + Z.of_nat (Z.to_nat ic) <= len raw).
  { destruct (Z.to_nat oc) as [|k] eqn:Ek; [lia|].
    pose proof (output_walk_count_bound _ _ _ _ E4 ltac:(lia) ltac:(lia)).
    lia. }
  assert (S5 : Machine.steps (5 + Z.to_nat ic + Z.to_nat oc) raw Machine.start
               = Machine.Run Machine.AtAssemble (Machine.set_pos v2 oe)).
  { replace (5 + Z.to_nat ic + Z.to_nat oc)%nat
      with (4 + Z.to_nat ic + (Z.to_nat oc + 1))%nat by lia.
    now rewrite steps_add, S4. }
  exists (6 + Z.to_nat ic + Z.to_nat oc)%nat.
  split; [lia|]. split.
  - replace (6 + Z.to_nat ic + Z.to_nat oc)%nat
      with (5 + Z.to_nat ic + Z.to_nat oc + 1)%nat by lia.
    rewrite steps_add, S5. reflexivity.
  - intros _ is_ ie' oe' ic' w1' oc' w2' Hsb Hr1 Hr2.
    assert (ie' = ie) as -> by congruence.
    assert (ic' = ic) as -> by congruence.
    assert (oc' = oc) as -> by congruence.
    split; [reflexivity|]. eexists; exact S5.
Qed.

(** C9: the rewriter terminates.  Run as a machine, one step for the
    guard, for each read of a count, for each test of a loop and for the
    assembly, it halts on every input within [len raw + 6] steps, with
    the result of [strip_witness_data] (a returned value or the
    exception raised), and more steps change nothing.  When it returns on
    a marker-bearing input it halts after exactly
    [6 + input_count + output_count] steps, not before: the loop over the
    inputs runs its body [input_count] times and the loop over the
    outputs [output_count] times, the two decoded counts, and every other
    statement runs once. *)
Theorem rewrite_terminates_single_pass (raw : list byte) :
  (exists fuel,
     Z.of_nat fuel <= len raw + 6 /\
     forall fuel', (fuel <= fuel')%nat ->
       Machine.run fuel' raw = Some (strip_witness_data raw)) /\
  (forall out,
     has_marker raw = true -> strip_witness_data raw = Ok out ->
     exists input_count w1 ie output_count w2 oe,
       read_varint raw 6 = Ok (input_count, w1) /\
       read_varint raw ie = Ok (output_count, w2) /\
       section_bounds raw = Ok (6, ie, oe) /\
       forall fuel,
         Machine.run fuel raw =
         if (6 + Z.to_nat input_count + Z.to_nat output_count <=? fuel)%nat
         then Some (Ok out) else None).
Proof.
  destruct (machine_halts raw) as (t & Ht & Hs & Hex).
  split.
  - exists t. split; [assumption|].
    intros fuel' Hf. unfold Machine.run.
    now rewrite (steps_halt_mono _ _ _ _ _ Hs Hf).
  - intros out Hm Hr. pose proof Hr as Hr'.
    rewrite strip_witness_data_marker in Hr' by assumption.
    destruct (section_bounds raw) as [[[is_ ie] oe]|e] eqn:Hsb;
      cbn [bind] in Hr'; [|discriminate].
    destruct (section_bounds_ok_inv _ _ _ _ Hsb)
      as (ic & w1 & oc & w2 & E1 & _ & E3 & _ & -> & _).
    exists ic, w1, ie, oc, w2, oe.
    repeat split; try assumption.
    destruct (Hex Hm _ _ _ _ _ _ _ eq_refl E1 E3) as (-> & v & Hv).
    intros fuel. unfold Machine.run.
    destruct (Nat.leb_spec (6 + Z.to_nat ic + Z.to_nat oc) fuel) as [Hle|Hlt].
    + now rewrite (steps_halt_mono _ _ _ _ _ Hs Hle), Hr.
    + destruct (Machine.steps fuel raw Machine.start) as [l v'|r] eqn:Hf;
        [reflexivity|].
      rewrite (steps_halt_mono fuel (5 + Z.to_nat ic + Z.to_nat oc) _ _ _ Hf)
        in Hv by lia.
      discriminate.
Qed.

Lemma rewrite_terminates_single_pass_witness :
  exists input_count w1 ie output_count w2 oe,
    read_varint one_input_record 6 = Ok (input_count, w1) /\
    read_varint one_input_record ie = Ok (output_count, w2) /\
    section_bounds one_input_record = Ok (6, ie, oe) /\
    forall fuel,
      Machine.run fuel one_input_record =
      if (6 + Z.to_nat input_count + Z.to_nat output_count <=? fuel)%nat
      then Some (Ok (slice one_input_record 0 4 ++ slice one_input_record 6 58
                     ++ slice_from one_input_record (-4)))
      else None.
Proof.
  apply (proj2 (rewrite_terminates_single_pass one_input_record)
           (slice one_input_record 0 4 ++ slice one_input_record 6 58
            ++ slice_from one_input_record (-4)));
    reflexivity.
Defined.

(** ** Where the bytes of the output come from *)

(** C10: whenever the rewriter returns on a marker-bearing input, the
    output is the concatenation of four contiguous slices of the input:
    its first 4 bytes, the inputs slice, the outputs slice and its last 4
    bytes, wherever the cursor ended (slice bounds past the end clamp);
    so every byte of the output is a byte of the input. *)
Theorem rewritten_bytes_come_from_input (raw out : list byte) :
  has_marker raw = true -> strip_witness_data raw = Ok out ->
  exists ie oe,
    section_bounds raw = Ok (6, ie, oe) /\
    out = firstn 4 raw
          ++ firstn (Z.to_nat (ie - 6)) (skipn 6 raw)
          ++ firstn (Z.to_nat (oe - ie)) (skipn (Z.to_nat ie) raw)
          ++ skipn (length raw - 4) raw /\
    length (firstn 4 raw) = 4%nat /\
    length (skipn (length raw - 4) raw) = 4%nat /\
    (forall b, In b out -> In b raw).
Proof.
  intros Hm Hr. pose proof Hm as Hm'.
  apply has_marker_true in Hm' as (Hlen & _).
  rewrite strip_witness_data_marker in Hr by assumption.
  destruct (section_bounds raw) as [[[is_ ie] oe]|e] eqn:Hs;
    cbn [bind] in Hr; [|discriminate].
  destruct (section_bounds_ok_inv _ _ _ _ Hs)
    as (ic & w1 & oc & w2 & _ & _ & _ & _ & ->
        & B1 & B2 & B3 & B4 & B5 & B6 & B7).
  injection Hr as <-.
  exists ie, oe. split; [reflexivity|].
  split; [|split; [|split]].
  - rewrite !slice_nonneg by lia.
    do 3 f_equal.
    unfold slice_from, slice_bound. change (-4 <? 0) with true.
    cbv iota. f_equal. unfold len in *; lia.
  - rewrite length_firstn. unfold len in *; lia.
  - rewrite length_skipn. unfold len in *; lia.
  - intros b Hb.
    apply in_app_or in Hb as [Hb|Hb]; [now apply In_slice in Hb|].
    apply in_app_or in Hb as [Hb|Hb]; [now apply In_slice in Hb|].
    apply in_app_or in Hb as [Hb|Hb]; [now apply In_slice in Hb|].
    now apply In_slice_from in Hb.
Qed.

Lemma rewritten_bytes_come_from_input_witness :
  exists ie oe,
    section_bounds overrun_record = Ok (6, ie, oe) /\
    [x02; x00; x00; x00; x00; x01; x11; x12; x13; x14; x15; x16; x17; x18;
     xc8; x16; x17; x18; xc8]
    = firstn 4 overrun_record
      ++ firstn (Z.to_nat (ie - 6)) (skipn 6 overrun_record)
      ++ firstn (Z.to_nat (oe - ie)) (skipn (Z.to_nat ie) overrun_record)
      ++ skipn (length overrun_record - 4) overrun_record /\
    length (firstn 4 overrun_record) = 4%nat /\
    length (skipn (length overrun_record - 4) overrun_record) = 4%nat /\
    (forall b,
       In b [x02; x00; x00; x00; x00; x01; x11; x12; x13; x14; x15; x16;
             x17; x18; xc8; x16; x17; x18; xc8] ->
       In b overrun_record).
Proof.
  apply (rewritten_bytes_come_from_input overrun_record); reflexivity.
Defined.

(** On [overrun_record] the cursor does end past the end of the input. *)
Lemma overrun_record_cursor_past_end :
  section_bounds overrun_record = Ok (6, 7, 217) /\
  len overrun_record = 17.
Proof. split; reflexivity. Qed.


(** * Further properties of the rewriter *)

(** ** Shape and size of the output *)

(** A slice that starts inside the sequence has the length its clamped
    end leaves. *)
Lemma slice_length_clamped {A} (data : list A) a b :
  0 <= a <= b -> a <= len data ->
  len (slice data a b) = Z.min b (len data) - a.
Proof.
  intros Hab Ha. rewrite slice_nonneg by lia.
  unfold len in *. rewrite length_firstn, length_skipn. lia.
Qed.

(** Whatever the rewriter returns on a marker-bearing input is made of
    the four slices, cut at the offsets of the walk. *)
Lemma strip_marker_shape raw out :
  has_marker raw = true -> strip_witness_data raw = Ok out ->
  exists ie oe,
    section_bounds raw = Ok (6, ie, oe) /\
    7 <= ie < len raw /\ ie < oe /\
    out = slice raw 0 4 ++ slice raw 6 ie ++ slice raw ie oe
          ++ slice_from raw (-4).
Proof.
  intros Hm Hr.
  rewrite strip_witness_data_marker in Hr by assumption.
  destruct (section_bounds raw) as [[[is_ ie] oe]|e] eqn:Hs;
    cbn [bind] in Hr; [|discriminate].
  destruct (section_bounds_ok_inv _ _ _ _ Hs)
    as (ic & w1 & oc & w2 & _ & _ & _ & _ & ->
        & B1 & B2 & B3 & B4 & B5 & B6 & B7).
  exists ie, oe. split; [reflexivity|].
  split; [lia|]. split; [lia|]. congruence.
Qed.

(** The header and the trailer survive: the first 4 and the last 4 bytes
    of every result on a marker-bearing input are those of the input. *)
Theorem header_and_trailer_preserved (raw out : list byte) :
  has_marker raw = true -> strip_witness_data raw = Ok out ->
  firstn 4 out = firstn 4 raw /\
  skipn (length out - 4) out = skipn (length raw - 4) raw.
Proof.
  intros Hm Hr.
  destruct (strip_marker_shape raw out Hm Hr) as (ie & oe & _ & Hie & Hoe & ->).
  apply has_marker_true in Hm as (Hlen & _).
  assert (Hh : length (slice raw 0 4) = 4%nat).
  { pose proof (slice_length raw 0 4 ltac:(lia) ltac:(lia)).
    unfold len in *; lia. }
  assert (Ht : slice_from raw (-4) = skipn (length raw - 4) raw).
  { unfold slice_from, slice_bound. change (-4 <? 0) with true.
    cbv iota. f_equal. unfold len in *; lia. }
  assert (Htl : length (slice_from raw (-4)) = 4%nat).
  { rewrite Ht, length_skipn. unfold len in *; lia. }
  assert (Hs04 : slice raw 0 4 = firstn 4 raw)
    by (now rewrite slice_nonneg by lia).
  rewrite Hs04 in *.
  split.
  - rewrite firstn_app, firstn_firstn, Hh, Nat.sub_diag.
    apply app_nil_r.
  - rewrite !app_assoc.
    set (front := (firstn 4 raw ++ slice raw 6 ie) ++ slice raw ie oe).
    rewrite length_app, Htl.
    replace (length front + 4 - 4)%nat with (length front) by lia.
    rewrite skipn_app, skipn_all, Nat.sub_diag. exact Ht.
Qed.

Lemma header_and_trailer_preserved_witness :
  firstn 4 [x02; x00; x00; x00; x00; x01; x11; x12; x13; x14; x15; x16; x17;
            x18; xc8; x16; x17; x18; xc8]
  = firstn 4 overrun_record /\
  skipn (length [x02; x00; x00; x00; x00; x01; x11; x12; x13; x14; x15; x16;
                 x17; x18; xc8; x16; x17; x18; xc8] - 4)
        [x02; x00; x00; x00; x00; x01; x11; x12; x13; x14; x15; x16; x17;
         x18; xc8; x16; x17; x18; xc8]
  = skipn (length overrun_record - 4) overrun_record.
Proof.
  apply (header_and_trailer_preserved overrun_record); reflexivity.
Defined.

(** The size of a result on a marker-bearing input: the end of the walk,
    clamped to the input, less the 2 marker bytes plus the 4 trailer
    bytes.  It is at least 10 bytes and at most 2 bytes more than the
    input (the trailer is cut from the end of the input whether or not
    the walk has already passed it). *)
Theorem rewritten_length (raw out : list byte) :
  has_marker raw = true -> strip_witness_data raw = Ok out ->
  exists ie oe,
    section_bounds raw = Ok (6, ie, oe) /\
    len out = Z.min oe (len raw) + 2 /\
    10 <= len out <= len raw + 2.
Proof.
  intros Hm Hr.
  destruct (strip_marker_shape raw out Hm Hr) as (ie & oe & Hs & Hie & Hoe & ->).
  apply has_marker_true in Hm as (Hlen & _).
  exists ie, oe. split; [assumption|].
  rewrite !len_app.
  rewrite (slice_length raw 0 4), (slice_length raw 6 ie),
    (slice_length_clamped raw ie oe), slice_from_length by lia.
  lia.
Qed.

Lemma rewritten_length_witness :
  exists ie oe,
    section_bounds overrun_record = Ok (6, ie, oe) /\
    len [x02; x00; x00; x00; x00; x01; x11; x12; x13; x14; x15; x16; x17;
         x18; xc8; x16; x17; x18; xc8]
    = Z.min oe (len overrun_record) + 2 /\
    10 <= len [x02; x00; x00; x00; x00; x01; x11; x12; x13; x14; x15; x16;
               x17; x18; xc8; x16; x17; x18; xc8]
       <= len overrun_record + 2.
Proof.
  apply (rewritten_length overrun_record); reflexivity.
Defined.

(** A marker-bearing input shorter than 8 bytes has no room for the two
    counts: the rewriter raises [IndexError]. *)
Theorem marker_without_counts_raises (raw : list byte) :
  has_marker raw = true -> len raw < 8 ->
  strip_witness_data raw = Raise IndexError.
Proof.
  intros Hm Hlen.
  destruct (strip_witness_data raw) as [out|[]] eqn:Hr; [exfalso | reflexivity].
  destruct (strip_marker_shape raw out Hm Hr) as (ie & oe & _ & Hie & _).
  lia.
Qed.

Lemma marker_without_counts_raises_witness :
  strip_witness_data [x01; x00; x00; x00; x00; x01; x00] = Raise IndexError.
Proof.
  apply (marker_without_counts_raises [x01; x00; x00; x00; x00; x01; x00]);
    reflexivity.
Defined.

(** The decoded counts of a run that returns are bounded by the input:
    every input takes at least 41 bytes, every output at least 9, and the
    header, the marker and the two counts take 8; the cursor moves
    forward accordingly. *)
Theorem counts_bounded_by_length (raw out : list byte) :
  has_marker raw = true -> strip_witness_data raw = Ok out ->
  exists input_count w1 ie output_count w2 oe,
    read_varint raw 6 = Ok (input_count, w1) /\
    read_varint raw ie = Ok (output_count, w2) /\
    section_bounds raw = Ok (6, ie, oe) /\
    7 + 41 * input_count <= ie /\
    ie + 1 + 9 * output_count <= oe /\
    8 + 41 * input_count + 9 * output_count <= len raw.
Proof.
  intros Hm Hr.
  destruct (strip_marker_shape raw out Hm Hr) as (ie & oe & Hs & _).
  destruct (section_bounds_ok_inv _ _ _ _ Hs)
    as (ic & w1 & oc & w2 & E1 & E2 & E3 & E4 & _
        & B1 & B2 & B3 & B4 & B5 & B6 & B7).
  exists ic, w1, ie, oc, w2, oe.
  repeat split; try assumption; try lia.
  destruct (Z.to_nat oc) as [|n] eqn:En; [lia|].
  pose proof (output_walk_count_bound raw (S n) (ie + w2) oe E4) as Hb.
  lia.
Qed.

Lemma counts_bounded_by_length_witness :
  exists input_count w1 ie output_count w2 oe,
    read_varint one_input_record 6 = Ok (input_count, w1) /\
    read_varint one_input_record ie = Ok (output_count, w2) /\
    section_bounds one_input_record = Ok (6, ie, oe) /\
    7 + 41 * input_count <= ie /\
    ie + 1 + 9 * output_count <= oe /\
    8 + 41 * input_count + 9 * output_count <= len one_input_record.
Proof.
  apply (counts_bounded_by_length one_input_record
           (slice one_input_record 0 4 ++ slice one_input_record 6 58
            ++ slice_from one_input_record (-4)));
    reflexivity.
Defined.

(** ** More on the varint reader *)

Lemma int_from_bytes_little_bound bs :
  int_from_bytes_little bs < 256 ^ len bs.
Proof.
  induction bs as [|b bs IH]; cbn [int_from_bytes_little]; [reflexivity|].
  pose proof (byte_val_range b).
  pose proof (len_nonneg bs).
  replace (len (b :: bs)) with (len bs + 1)
    by (unfold len; cbn [length]; lia).
  rewrite Z.pow_add_r by lia. lia.
Qed.

(** A slice whose bounds are in order has at most as many elements as
    they are apart, also when the lower one counts from the end. *)
Lemma slice_length_le {A} (data : list A) lo hi :
  lo <= hi -> len (slice data lo hi) <= hi - lo.
Proof.
  intros Hle. unfold slice, slice_bound, len.
  rewrite length_firstn, length_skipn.
  destruct (Z.ltb_spec lo 0), (Z.ltb_spec hi 0); lia.
Qed.

(** The value the reader returns fits the width it returns: below 253
    for width 1, below 2^16, 2^32 and 2^64 for widths 3, 5 and 9; it is
    never negative and no other width occurs. *)
Theorem read_varint_value_range (data : list byte) (pos v w : Z) :
  read_varint data pos = Ok (v, w) ->
  (w = 1 /\ 0 <= v < 253) \/ (w = 3 /\ 0 <= v < 2 ^ 16) \/
  (w = 5 /\ 0 <= v < 2 ^ 32) \/ (w = 9 /\ 0 <= v < 2 ^ 64).
Proof.
  unfold read_varint; intros H.
  destruct (getitem data pos) as [d|e]; cbn [bind] in H; [|discriminate].
  assert (Hb : forall k, 0 <= k ->
            0 <= int_from_bytes_little (slice data (pos + 1) (pos + 1 + k))
            < 256 ^ k).
  { intros k Hk. split; [apply int_from_bytes_little_nonneg|].
    eapply Z.lt_le_trans; [apply int_from_bytes_little_bound|].
    apply Z.pow_le_mono_r; [lia|].
    pose proof (slice_length_le data (pos + 1) (pos + 1 + k)). lia. }

  destruct (Z.ltb_spec (byte_val d) 253).
  { injection H as <- <-. left. pose proof (byte_val_range d). lia. }
  destruct (byte_val d =? 253).
  { injection H as <- <-. right; left. split; [reflexivity|].
    replace (pos + 3) with (pos + 1 + 2) by lia. apply (Hb 2); lia. }
  destruct (byte_val d =? 254).
  { injection H as <- <-. right; right; left. split; [reflexivity|].
    replace (pos + 5) with (pos + 1 + 4) by lia. apply (Hb 4); lia. }
  injection H as <- <-. right; right; right. split; [reflexivity|].
  replace (pos + 9) with (pos + 1 + 8) by lia. apply (Hb 8); lia.
Qed.

Lemma read_varint_value_range_witness :
  (3 = 1 /\ 0 <= 513 < 253) \/ (3 = 3 /\ 0 <= 513 < 2 ^ 16) \/
  (3 = 5 /\ 0 <= 513 < 2 ^ 32) \/ (3 = 9 /\ 0 <= 513 < 2 ^ 64).
Proof.
  apply (read_varint_value_range [x00; xfd; x01; x02; x03] 1 513 3).
  reflexivity.
Defined.

Lemma getitem_app_shift {A} (pre data : list A) i :
  0 <= i -> getitem (pre ++ data) (len pre + i) = getitem data i.
Proof.
  intros Hi. pose proof (len_nonneg pre).
  rewrite !getitem_nonneg by lia. rewrite len_app.
  destruct (Z.leb_spec (len pre + len data) (len pre + i)),
           (Z.leb_spec (len data) i); try lia; [reflexivity|].
  rewrite nth_error_app2 by (unfold len in *; lia).
  replace (Z.to_nat (len pre + i) - length pre)%nat with (Z.to_nat i)
    by (unfold len in *; lia).
  reflexivity.
Qed.

Lemma slice_app_shift {A} (pre data : list A) a b :
  0 <= a -> 0 <= b ->
  slice (pre ++ data) (len pre + a) (len pre + b) = slice data a b.
Proof.
  intros Ha Hb. pose proof (len_nonneg pre). pose proof (len_nonneg data).
  unfold slice. rewrite len_app. unfold slice_bound.
  destruct (Z.ltb_spec (len pre + a) 0); [lia|].
  destruct (Z.ltb_spec (len pre + b) 0); [lia|].
  destruct (Z.ltb_spec a 0); [lia|].
  destruct (Z.ltb_spec b 0); [lia|].
  replace (Z.min (len pre + a) (len pre + len data))
    with (len pre + Z.min a (len data)) by lia.
  replace (Z.min (len pre + b) (len pre + len data))
    with (len pre + Z.min b (len data)) by lia.
  rewrite skipn_app.
  rewrite skipn_all2 by (unfold len in *; lia). cbn [app].
  f_equal; [lia|]. f_equal. unfold len in *; lia.
Qed.

(** Reading is relative to the offset: the bytes before a non-negative
    offset play no part, so a varint reads the same wherever the bytes
    that hold it are placed. *)
Theorem read_varint_shift (pre data : list byte) (pos : Z) :
  0 <= pos ->
  read_varint (pre ++ data) (len pre + pos) = read_varint data pos.
Proof.
  intros Hpos. unfold read_varint.
  rewrite getitem_app_shift by assumption.
  destruct (getitem data pos) as [d|e]; cbn [bind]; [|reflexivity].
  replace (len pre + pos + 1) with (len pre + (pos + 1)) by lia.
  replace (len pre + pos + 3) with (len pre + (pos + 3)) by lia.
  replace (len pre + pos + 5) with (len pre + (pos + 5)) by lia.
  replace (len pre + pos + 9) with (len pre + (pos + 9)) by lia.
  now rewrite !slice_app_shift by lia.
Qed.

Lemma read_varint_shift_witness :
  read_varint ([x07; x08] ++ [x00; xfe; x01; x02]) (len [x07; x08] + 1)
  = read_varint [x00; xfe; x01; x02] 1.
Proof.
  apply (read_varint_shift [x07; x08] [x00; xfe; x01; x02] 1). lia.
Defined.

(** ** The tagged payload plays no part *)

(** What a prefix reads below its end, the whole sequence reads too. *)
Lemma read_varint_of_firstn data (k : nat) pos v w :
  read_varint (firstn k data) pos = Ok (v, w) -> 0 <= pos ->
  pos + w <= Z.of_nat k -> (k <= length data)%nat ->
  read_varint data pos = Ok (v, w).
Proof.
  intros H Hpos Hk Hlen.
  destruct (read_varint_ok_inv _ _ _ _ H Hpos) as (Hin & _ & Hw).
  assert (Hlk : len (firstn k data) = Z.of_nat k)
    by (unfold len; rewrite length_firstn; lia).
  rewrite read_varint_unfold in *.
  rewrite getitem_firstn in H by lia.
  destruct (getitem data pos) as [d|e]; cbn [bind] in *; [|discriminate].
  assert (varint_width d = w) as <- by congruence.
  rewrite slice_firstn in H by lia.
  exact H.
Qed.

Lemma input_body_of_firstn raw (k : nat) pos p :
  input_body (firstn k raw) pos = Ok p -> 0 <= pos ->
  p <= Z.of_nat k -> (k <= length raw)%nat ->
  input_body raw pos = Ok p.
Proof.
  intros H Hpos Hk Hlen.
  destruct (input_body_ok_inv _ _ _ H Hpos) as (v & w & E & -> & _).
  destruct (read_varint_ok_inv _ _ _ _ E ltac:(lia)) as (_ & Hv & _).
  unfold input_body.
  now rewrite (read_varint_of_firstn _ _ _ _ _ E) by lia.
Qed.

Lemma output_body_of_firstn raw (k : nat) pos p :
  output_body (firstn k raw) pos = Ok p -> 0 <= pos ->
  p <= Z.of_nat k -> (k <= length raw)%nat ->
  output_body raw pos = Ok p.
Proof.
  intros H Hpos Hk Hlen.
  destruct (output_body_ok_inv _ _ _ H Hpos) as (v & w & E & -> & _).
  destruct (read_varint_ok_inv _ _ _ _ E ltac:(lia)) as (_ & Hv & _).
  unfold output_body.
  now rewrite (read_varint_of_firstn _ _ _ _ _ E) by lia.
Qed.

Lemma section_bounds_of_firstn raw (k : nat) is_ ie oe :
  section_bounds (firstn k raw) = Ok (is_, ie, oe) ->
  oe <= Z.of_nat k -> (k <= length raw)%nat ->
  section_bounds raw = Ok (is_, ie, oe).
Proof.
  intros H Hk Hlen.
  destruct (section_bounds_ok_inv _ _ _ _ H)
    as (ic & w1 & oc & w2 & E1 & E2 & E3 & E4 & ->
        & B1 & B2 & B3 & B4 & B5 & B6 & B7).
  unfold section_bounds.
  rewrite (read_varint_of_firstn _ _ _ _ _ E1) by lia. cbn [bind].
  rewrite (for_range_agrees (input_body (firstn k raw)) (input_body raw)
             41 (Z.of_nat k) ltac:(lia)
             (input_body_advances (firstn k raw))
             (fun pos p Hb Hp Hq => input_body_of_firstn raw k pos p Hb Hp Hq Hlen)
             _ _ _ E2) by lia.
  cbn [bind].
  rewrite (read_varint_of_firstn _ _ _ _ _ E3) by lia. cbn [bind].
  rewrite (for_range_agrees (output_body (firstn k raw)) (output_body raw)
             9 (Z.of_nat k) ltac:(lia)
             (output_body_advances (firstn k raw))
             (fun pos p Hb Hp Hq => output_body_of_firstn raw k pos p Hb Hp Hq Hlen)
             _ _ _ E4) by lia.
  cbn [bind]. do 3 f_equal. lia.
Qed.

(** A record made of a prefix that holds the header, the marker and the
    two sections up to its end, any bytes in between, and 4 final bytes,
    is rewritten from the prefix and the final bytes alone. *)
Lemma strip_sections_then_trailer sections payload trailer ie :
  has_marker sections = true ->
  section_bounds sections = Ok (6, ie, len sections) ->
  len trailer = 4 ->
  strip_witness_data (sections ++ payload ++ trailer) =
  Ok (slice sections 0 4 ++ slice sections 6 ie
      ++ slice sections ie (len sections) ++ trailer).
Proof.
  intros Hm Hs Ht.
  set (raw := sections ++ payload ++ trailer).
  set (k := length sections).
  assert (Hk : firstn k raw = sections)
    by (unfold raw, k; now rewrite firstn_app, firstn_all, Nat.sub_diag, app_nil_r).
  assert (Hkl : (k <= length raw)%nat)
    by (unfold raw, k; rewrite length_app; lia).
  assert (Hlk : Z.of_nat k = len sections) by reflexivity.
  destruct (section_bounds_ok_inv _ _ _ _ Hs)
    as (ic & w1 & oc & w2 & _ & _ & _ & _ & _
        & B1 & B2 & B3 & B4 & B5 & B6 & B7).
  apply has_marker_true in Hm as (Hlen & Hmk).
  assert (Hs' : section_bounds raw = Ok (6, ie, len sections)).
  { apply (section_bounds_of_firstn raw k); [now rewrite Hk | lia | assumption]. }
  assert (Hsl : forall a b, 0 <= a -> 0 <= b <= len sections ->
                      slice raw a b = slice sections a b).
  { intros a b Ha Hb. rewrite <- (slice_firstn raw k a b) by lia.
    now rewrite Hk. }
  rewrite strip_witness_data_marker, Hs'.
  - cbn [bind]. rewrite !Hsl by lia.
    unfold raw. rewrite (app_assoc sections payload trailer).
    rewrite (slice_from_app_suffix _ trailer Ht).
    reflexivity.
  - apply has_marker_true. split.
    + unfold raw. rewrite len_app. pose proof (len_nonneg (payload ++ trailer)). lia.
    + rewrite Hsl by lia. assumption.
Qed.

(** The tagged payload plays no part in the result: two records with the
    same header, marker, sections and trailer are rewritten to the same
    bytes, whatever lies between the output section and the trailer. *)
Theorem tagged_payload_irrelevant
  (sections payload payload' trailer : list byte) (ie : Z) :
  has_marker sections = true ->
  section_bounds sections = Ok (6, ie, len sections) ->
  len trailer = 4 ->
  strip_witness_data (sections ++ payload ++ trailer)
  = strip_witness_data (sections ++ payload' ++ trailer) /\
  strip_witness_data (sections ++ payload ++ trailer)
  = Ok (firstn 4 sections ++ skipn 6 sections ++ trailer).
Proof.
  intros Hm Hs Ht.
  rewrite !(strip_sections_then_trailer _ _ _ ie) by assumption.
  split; [reflexivity|].
  destruct (section_bounds_ok_inv _ _ _ _ Hs)
    as (ic & w1 & oc & w2 & _ & _ & _ & _ & _
        & B1 & B2 & B3 & B4 & B5 & B6 & B7).
  rewrite (app_assoc (slice sections 6 ie)), slice_app by lia.
  rewrite !slice_nonneg by lia.
  do 2 f_equal. f_equal.
  apply firstn_all2. rewrite length_skipn. unfold len; lia.
Qed.

Lemma tagged_payload_irrelevant_witness :
  strip_witness_data
    ([x02; x00; x00; x00; x00; x01; x00; x00] ++ [xaa; xbb]
     ++ [x01; x02; x03; x04])
  = strip_witness_data
      ([x02; x00; x00; x00; x00; x01; x00; x00] ++ [xcc]
       ++ [x01; x02; x03; x04]) /\
  strip_witness_data
    ([x02; x00; x00; x00; x00; x01; x00; x00] ++ [xaa; xbb]
     ++ [x01; x02; x03; x04])
  = Ok (firstn 4 [x02; x00; x00; x00; x00; x01; x00; x00]
        ++ skipn 6 [x02; x00; x00; x00; x00; x01; x00; x00]
        ++ [x01; x02; x03; x04]).
Proof.
  apply (tagged_payload_irrelevant
           [x02; x00; x00; x00; x00; x01; x00; x00] [xaa; xbb] [xcc]
           [x01; x02; x03; x04] 7); reflexivity.
Defined.

(** * The function on hex strings *)

(** ** Encoding and decoding *)

Lemma hex_cons b bs : Hex.hex (b :: bs) = Hex.hex [b] ++ Hex.hex bs.
Proof. reflexivity. Qed.

Lemma hex_length bs : length (Hex.hex bs) = (2 * length bs)%nat.
Proof.
  induction bs as [|b bs IH]; [reflexivity|].
  rewrite hex_cons, length_app, IH. cbn [length Hex.hex flat_map app]. lia.
Qed.

Lemma fromhex_hex_cons b rest :
  Hex.fromhex (Hex.hex [b] ++ rest)
  = match Hex.fromhex rest with
    | Some bs => Some (b :: bs)
    | None => None
    end.
Proof. destruct b; reflexivity. Qed.

Lemma hex_lower b :
  forallb Hex.is_lower_hex_digit (Hex.hex [b]) = true.
Proof. destruct b; reflexivity. Qed.

Lemma hex_all_lower bs :
  forallb Hex.is_lower_hex_digit (Hex.hex bs) = true.
Proof.
  induction bs as [|b bs IH]; [reflexivity|].
  now rewrite hex_cons, forallb_app, hex_lower, IH.
Qed.

Lemma replace_0x_without_x s :
  Forall (fun c => c <> 120%N) s -> Hex.replace_0x s = s.
Proof.
  induction 1 as [|c rest Hc Hrest IH]; [reflexivity|].
  cbn [Hex.replace_0x]. destruct rest as [|d rest']; [reflexivity|].
  inversion Hrest as [|? ? Hd _]; subst.
  apply N.eqb_neq in Hd. rewrite Hd, andb_false_r.
  now rewrite IH.
Qed.

Lemma lower_hex_is_not_x s :
  forallb Hex.is_lower_hex_digit s = true -> Forall (fun c => c <> 120%N) s.
Proof.
  intros H. apply Forall_forall. intros c Hc.
  rewrite forallb_forall in H. specialize (H c Hc).
  unfold Hex.is_lower_hex_digit in H.
  rewrite orb_true_iff, !andb_true_iff, !N.leb_le in H. lia.
Qed.

Lemma hex_digit_is_not_x s :
  forallb Hex.is_hex_digit s = true -> Forall (fun c => c <> 120%N) s.
Proof.
  intros H. apply Forall_forall. intros c Hc ->.
  rewrite forallb_forall in H. specialize (H _ Hc). discriminate.
Qed.

Lemma fromhex_hex bs : Hex.fromhex (Hex.hex bs) = Some bs.
Proof.
  induction bs as [|b bs IH]; [reflexivity|].
  now rewrite hex_cons, fromhex_hex_cons, IH.
Qed.

Lemma fromhex_prefixed_hex bs :
  Hex.fromhex (Hex.replace_0x (Hex.prefix_0x ++ Hex.hex bs)) = Some bs.
Proof.
  change (Hex.replace_0x (Hex.prefix_0x ++ Hex.hex bs))
    with (Hex.replace_0x (Hex.hex bs)).
  rewrite replace_0x_without_x
    by (apply lower_hex_is_not_x, hex_all_lower).
  apply fromhex_hex.
Qed.

(** ** Round trip *)

(** Decoding undoes encoding, with or without the [0x] the function puts
    in front: whatever the function returns for a rewritten record is a
    string it accepts, and it decodes to the rewritten bytes. *)
Theorem fromhex_hex_roundtrip (bs : list byte) :
  Hex.fromhex (Hex.hex bs) = Some bs /\
  Hex.fromhex (Hex.replace_0x (Hex.prefix_0x ++ Hex.hex bs)) = Some bs.
Proof.
  split; [apply fromhex_hex | apply fromhex_prefixed_hex].
Qed.

(** ** The prefix *)

(** [0x] is removed wherever it stands, not only in front: between two
    strings without the letter [x] it disappears and the two are joined.
    In front of a string ([before] empty) this strips the usual prefix. *)
Theorem replace_0x_removes_infix (before after : Hex.str) :
  Forall (fun c => c <> 120%N) before ->
  Forall (fun c => c <> 120%N) after ->
  Hex.replace_0x (before ++ Hex.prefix_0x ++ after) = before ++ after.
Proof.
  intros Hb Ha. induction Hb as [|c rest Hc Hrest IH].
  - cbn [app]. change (Hex.replace_0x (Hex.prefix_0x ++ after))
      with (Hex.replace_0x after).
    now apply replace_0x_without_x.
  - cbn [app Hex.replace_0x] in *.
    destruct rest as [|d rest'].
    + cbn [app] in *. change (Hex.prefix_0x ++ after) with (48 :: 120 :: after)%N.
      cbv iota.
      change ((48 =? 120)%N) with false. rewrite andb_false_r.
      f_equal. exact IH.
    + cbn [app] in *. inversion Hrest as [|? ? Hd _]; subst.
      apply N.eqb_neq in Hd. rewrite Hd, andb_false_r.
      now rewrite IH.
Qed.

Lemma replace_0x_removes_infix_witness :
  Hex.replace_0x (Hex.of_string "10"%string ++ Hex.prefix_0x
                  ++ Hex.of_string "01"%string)
  = Hex.of_string "10"%string ++ Hex.of_string "01"%string.
Proof.
  apply (replace_0x_removes_infix (Hex.of_string "10"%string)
           (Hex.of_string "01"%string));
    repeat constructor; discriminate.
Defined.

(** ** The function and the rewriter on bytes *)

Lemma hex_guard_is_no_marker raw :
  (len raw <? 6) || negb (bytes_eqb (slice raw 4 6) [x00; x01])
  = negb (has_marker raw).
Proof. unfold has_marker. now rewrite negb_involutive. Qed.

(** The function on strings is the rewriter on the decoded bytes: when it
    returns a string, the argument decodes to some bytes, the rewriter
    returns on them, and the returned string decodes to what the rewriter
    returned.  Without marker the returned string is the argument itself,
    character for character; with the marker it is [0x] followed by the
    lowercase hexadecimal form of the rewritten bytes. *)
Theorem hex_rewrite_decodes_to_rewrite (s t : Hex.str) :
  Hex.strip_witness_data s = Hex.Return t ->
  exists raw out,
    Hex.fromhex (Hex.replace_0x s) = Some raw /\
    strip_witness_data raw = Ok out /\
    Hex.fromhex (Hex.replace_0x t) = Some out /\
    (if has_marker raw then t = Hex.prefix_0x ++ Hex.hex out else t = s).
Proof.
  unfold Hex.strip_witness_data; intros H.
  destruct (Hex.fromhex (Hex.replace_0x s)) as [raw|] eqn:Hd; [|discriminate].
  rewrite hex_guard_is_no_marker in H.
  destruct (has_marker raw) eqn:Hm; cbn [negb] in H.
  - destruct (strip_witness_data raw) as [out|e] eqn:Hr; [|discriminate].
    injection H as <-.
    exists raw, out. rewrite Hm.
    repeat split; try reflexivity; try assumption.
    apply fromhex_prefixed_hex.
  - injection H as <-.
    exists raw, raw. rewrite Hm.
    repeat split; try assumption.
    now apply strip_witness_data_no_marker.
Qed.

Lemma hex_rewrite_decodes_to_rewrite_witness :
  exists raw out,
    Hex.fromhex
      (Hex.replace_0x (Hex.of_string "0x020000000001000001020304"%string))
    = Some raw /\
    strip_witness_data raw = Ok out /\
    Hex.fromhex (Hex.replace_0x (Hex.of_string "0x02000000000001020304"%string))
    = Some out /\
    (if has_marker raw
     then Hex.of_string "0x02000000000001020304"%string
          = Hex.prefix_0x ++ Hex.hex out
     else Hex.of_string "0x02000000000001020304"%string
          = Hex.of_string "0x020000000001000001020304"%string).
Proof.
  apply (hex_rewrite_decodes_to_rewrite
           (Hex.of_string "0x020000000001000001020304"%string)
           (Hex.of_string "0x02000000000001020304"%string)).
  reflexivity.
Defined.

(** The format of a rewritten record: [0x], then two lowercase
    hexadecimal digits for every byte the rewriter returned. *)
Theorem hex_rewrite_format (s t : Hex.str) (raw : list byte) :
  Hex.strip_witness_data s = Hex.Return t ->
  Hex.fromhex (Hex.replace_0x s) = Some raw ->
  has_marker raw = true ->
  exists out,
    strip_witness_data raw = Ok out /\
    firstn 2 t = Hex.prefix_0x /\
    forallb Hex.is_lower_hex_digit (skipn 2 t) = true /\
    length t = (2 + 2 * length out)%nat.
Proof.
  unfold Hex.strip_witness_data; intros H Hd Hm.
  rewrite Hd, hex_guard_is_no_marker, Hm in H. cbn [negb] in H.
  destruct (strip_witness_data raw) as [out|e]; [|discriminate].
  injection H as <-. exists out.
  split; [reflexivity|]. split; [reflexivity|].
  split; [apply hex_all_lower|].
  change (length (48 :: 120 :: Hex.hex out)%N
          = (2 + 2 * length out)%nat).
  cbn [length]. rewrite hex_length. lia.
Qed.

Lemma hex_rewrite_format_witness :
  exists out,
    strip_witness_data [x02; x00; x00; x00; x00; x01; x00; x00; x01; x02;
                        x03; x04]
    = Ok out /\
    firstn 2 (Hex.of_string "0x02000000000001020304"%string)
    = Hex.prefix_0x /\
    forallb Hex.is_lower_hex_digit
      (skipn 2 (Hex.of_string "0x02000000000001020304"%string)) = true /\
    length (Hex.of_string "0x02000000000001020304"%string)
    = (2 + 2 * length out)%nat.
Proof.
  apply (hex_rewrite_format
           (Hex.of_string "020000000001000001020304"%string)
           (Hex.of_string "0x02000000000001020304"%string));
    reflexivity.
Defined.

(** ** Strings the function rejects *)

Lemma hex_digit_not_space c :
  Hex.is_hex_digit c = true -> Hex.is_space c = false.
Proof.
  unfold Hex.is_hex_digit, Hex.digit_value, Hex.is_space.
  destruct ((48 <=? c) && (c <=? 57))%N eqn:E1;
    [|destruct ((97 <=? c) && (c <=? 102))%N eqn:E2;
      [|destruct ((65 <=? c) && (c <=? 70))%N eqn:E3; [|discriminate]]];
    intros _;
    apply andb_true_iff in E1 || apply andb_true_iff in E2
    || apply andb_true_iff in E3;
    rewrite orb_false_iff, andb_false_iff, !N.leb_gt, N.eqb_neq;
    rewrite !N.leb_le in *; lia.
Qed.

(** Decoding a string of hexadecimal digits: an even number of digits
    gives half as many bytes, an odd number is an error. *)
Lemma fromhex_digits s :
  forallb Hex.is_hex_digit s = true ->
  match Hex.fromhex s with
  | Some bs => Nat.even (length s) = true /\ length s = (2 * length bs)%nat
  | None => Nat.even (length s) = false
  end.
Proof.
  enough (H : forall s,
             forallb Hex.is_hex_digit s = true ->
             match Hex.fromhex s with
             | Some bs =>
                 Nat.even (length s) = true /\ length s = (2 * length bs)%nat
             | None => Nat.even (length s) = false
             end /\
             forall c, Hex.is_hex_digit c = true ->
             match Hex.fromhex (c :: s) with
             | Some bs =>
                 Nat.even (S (length s)) = true
                 /\ S (length s) = (2 * length bs)%nat
             | None => Nat.even (S (length s)) = false
             end)
    by (intros Hs; now apply H).
  clear s. induction s as [|d s IH]; intros Hs.
  - split; [now split|].
    intros c Hc. cbn [Hex.fromhex].
    rewrite (hex_digit_not_space c Hc).
    unfold Hex.is_hex_digit in Hc.
    destruct (Hex.digit_value c); [reflexivity | discriminate].
  - cbn [forallb] in Hs. apply andb_true_iff in Hs as (Hd & Hs).
    destruct (IH Hs) as (IH0 & IH1).
    split; [now apply IH1|].
    intros c Hc. cbn [Hex.fromhex].
    rewrite (hex_digit_not_space c Hc).
    unfold Hex.is_hex_digit in Hc, Hd.
    destruct (Hex.digit_value c); [|discriminate].
    destruct (Hex.digit_value d); [|discriminate].
    destruct (Hex.fromhex s) as [bs|].
    + destruct IH0 as (He & Hl). cbn [length]. split; [exact He | lia].
    + exact IH0.
Qed.

(** A string of hexadecimal digits with an odd number of digits is
    rejected with [ValueError]. *)
Theorem odd_digits_rejected (s : Hex.str) :
  forallb Hex.is_hex_digit s = true -> Nat.odd (length s) = true ->
  Hex.strip_witness_data s = Hex.Fail Hex.ValueError.
Proof.
  intros Hs Hodd. unfold Hex.strip_witness_data.
  rewrite replace_0x_without_x by now apply hex_digit_is_not_x.
  pose proof (fromhex_digits s Hs) as H.
  destruct (Hex.fromhex s) as [bs|]; [|reflexivity].
  destruct H as (He & _).
  unfold Nat.odd in Hodd. rewrite He in Hodd. discriminate.
Qed.

Lemma odd_digits_rejected_witness :
  Hex.strip_witness_data (Hex.of_string "02000"%string)
  = Hex.Fail Hex.ValueError.
Proof.
  apply (odd_digits_rejected (Hex.of_string "02000"%string)); reflexivity.
Defined.

(** Only the lowercase prefix is removed: an argument that starts with
    [0X] is rejected with [ValueError], whatever follows. *)
Theorem uppercase_prefix_rejected (rest : Hex.str) :
  Hex.strip_witness_data ([48; 88]%N ++ rest) = Hex.Fail Hex.ValueError.
Proof.
  unfold Hex.strip_witness_data.
  assert (H : exists tl, Hex.replace_0x ([48; 88]%N ++ rest)
                         = (48 :: 88 :: tl)%N).
  { cbn [app Hex.replace_0x].
    change ((48 =? 48)%N && (88 =? 120)%N) with false. cbv iota.
    destruct rest as [|d rest']; [now exists []|].
    change ((88 =? 48)%N) with false. cbn [andb].
    eexists; reflexivity. }
  destruct H as (tl & ->). reflexivity.
Qed.
